(** * LALR(1) table generation: a shallow embedding of [parsing/lalr_one.py]

    The development follows the Python module function by function:
    [closure], [goto], [get_canonical_collection] and the table set-up of
    [ParsingTable].  Python sets and dictionaries are stdpp's [gset] and
    [gmap]; lists indexed by state id are lists; exceptions are an explicit
    result type. *)

From stdpp Require Import gmap strings list fin_maps fin_sets.

Set Default Proof Using "Type".

(** ** Exceptions and the result monad *)

Inductive exn := IndexError | KeyError | AssertionError.

(** [Timeout] is not a Python outcome: it marks a [while] loop of the model
    that used up its fuel. *)
Inductive result (A : Type) : Type :=
  | Ok (a : A)
  | Raise (e : exn)
  | Timeout.
Arguments Ok {A} a.
Arguments Raise {A} e.
Arguments Timeout {A}.

Global Instance result_ret : MRet result := λ A a, Ok a.
Global Instance result_bind : MBind result := λ A B f m,
  match m with
  | Ok a => f a
  | Raise e => Raise e
  | Timeout => Timeout
  end.

(** [l[i]] on a list: [IndexError] out of range. *)
Definition index {A} (l : list A) (i : nat) : result A :=
  match l !! i with
  | Some x => Ok x
  | None => Raise IndexError
  end.

(** [d[k]] on a dict: [KeyError] when the key is absent. *)
Definition getitem `{Countable K} {V} (d : gmap K V) (k : K) : result V :=
  match d !! k with
  | Some x => Ok x
  | None => Raise KeyError
  end.

(** A [for] loop threading a state, stopping at the first exception. *)
Fixpoint for_each {A S} (f : S → A → result S) (s : S) (l : list A) : result S :=
  match l with
  | [] => Ok s
  | x :: l' => s' ← f s x; for_each f s' l'
  end.

(** ** Symbols, items and grammars *)

(** A nonterminal object; of its production list the module only reads the
    length, [len(nt.productions)]. *)
Record NonTerminal := MkNonTerminal {
  nt_name : string;
  nt_n_productions : nat;
}.

(** Terminals are Python strings ([isinstance(x, str)]), nonterminals are
    objects. *)
Inductive Symbol :=
  | T (name : string)
  | N (nt : NonTerminal).

Global Instance NonTerminal_eq_dec : EqDecision NonTerminal.
Proof. solve_decision. Defined.
Global Instance NonTerminal_countable : Countable NonTerminal.
Proof.
  refine (inj_countable' (λ x, (nt_name x, nt_n_productions x))
                         (λ p, MkNonTerminal p.1 p.2) _).
  by intros [].
Defined.
Global Instance Symbol_eq_dec : EqDecision Symbol.
Proof. solve_decision. Defined.
Global Instance Symbol_countable : Countable Symbol.
Proof.
  refine (inj_countable' (λ x, match x with T s => inl s | N n => inr n end)
                         (λ s, match s with inl s => T s | inr n => N n end) _).
  by intros [].
Defined.

(** An item is [(prod_index, dot)]; a lookahead item pairs it with a
    terminal. *)
Abbreviation Item := (nat * nat)%type.
Abbreviation LItem := (nat * nat * string)%type.

(** The grammar object, as far as this module reads it. *)
Record Grammar := MkGrammar {
  productions : list (NonTerminal * list Symbol);
  terminals : list string;
  nonterms : list NonTerminal;
  nonterm_offset : gmap NonTerminal nat;
  first_set : list Symbol → gset (option string);
  end_of_input : string;
  free_symbol : string;
}.

Implicit Types gr : Grammar.

(** The LR(0) automaton object: [dfa.states] and the dict [dfa.goto]. *)
Record Automaton := MkAutomaton {
  states : list (gset Item);
  dfa_goto : gmap (nat * Symbol) nat;
}.

(** The interface of the imported module [parsing.lr_zero]. *)
Record LrZero := MkLrZero {
  get_automaton : Grammar → Automaton;
  kernels : gset Item → gset Item;
}.

(** ** closure *)

(** [gr.first_set(following_symbols) - {None}], in iteration order. *)
Definition following_terminals (gr : Grammar) (following_symbols : list Symbol)
    : list string :=
  omap id (elements (first_set gr following_symbols ∖ {[None]})).

(** The body of the two inner loops: add an item unless it is in [result]. *)
Definition add_new (st : gset LItem * list LItem) (new_item_set : LItem)
    : gset LItem * list LItem :=
  if decide (new_item_set ∈ st.1) then st
  else ({[new_item_set]} ∪ st.1, st.2 ++ [new_item_set]).

(** The items the inner loops of [closure] visit for one element of
    [current], in visiting order. *)
Definition expansion (nt_offset n : nat) (terms : list string) : list LItem :=
  idx ← seq 0 n; term ← terms; [((nt_offset + idx, 0), term)].

(** One turn of [for ((prod_index, dot), lookahead) in current]. *)
Definition closure_step (gr : Grammar) (st : gset LItem * list LItem)
    (it : LItem) : result (gset LItem * list LItem) :=
  let '((prod_index, dot), lookahead) := it in
  p ← index (productions gr) prod_index;
  let pbody := p.2 in
  if decide (dot = length pbody) then Ok st else
  sym ← index pbody dot;
  match sym with
  | T _ => Ok st
  | N nt =>
      if decide (nt ∈ nonterms gr) then
        nt_offset ← getitem (nonterm_offset gr) nt;
        let following_symbols := drop (dot + 1) pbody ++ [T lookahead] in
        Ok (foldl add_new st
              (expansion nt_offset (nt_n_productions nt)
                 (following_terminals gr following_symbols)))
      else Ok st
  end.

(** The [while len(current) > 0] loop; one unit of fuel per turn. *)
Fixpoint closure_loop (gr : Grammar) (fuel : nat) (res : gset LItem)
    (current : list LItem) : result (gset LItem) :=
  match current with
  | [] => Ok res
  | _ =>
      match fuel with
      | 0 => Timeout
      | S fuel' =>
          st ← for_each (closure_step gr) (res, []) current;
          closure_loop gr fuel' st.1 st.2
      end
  end.

(** Terminals occurring in production bodies. *)
Definition body_terminals (gr : Grammar) : list string :=
  p ← productions gr; omap (λ s, match s with T t => Some t | N _ => None end) p.2.

(** The lookaheads a closure of [item_set] can mention. *)
Definition lookahead_universe (gr : Grammar) (item_set : list LItem) : gset string :=
  list_to_set (terminals gr) ∪ list_to_set (body_terminals gr)
    ∪ list_to_set (item_set.*2).

Definition closure_fuel (gr : Grammar) (item_set : list LItem) : nat :=
  S (length (productions gr) * size (lookahead_universe gr item_set)).

Definition closure (gr : Grammar) (item_set : list LItem) : result (gset LItem) :=
  closure_loop gr (closure_fuel gr item_set) (list_to_set item_set) item_set.

(** ** goto *)

Definition goto_step (gr : Grammar) (inp : Symbol) (result_set : gset LItem)
    (it : LItem) : result (gset LItem) :=
  let '((prod_id, dot), lookahead) := it in
  p ← index (productions gr) prod_id;
  let pbody := p.2 in
  if decide (dot = length pbody) then Ok result_set else
  sym ← index pbody dot;
  if decide (sym ≠ inp) then Ok result_set
  else Ok ({[((prod_id, dot + 1), lookahead)]} ∪ result_set).

Definition goto (gr : Grammar) (item_set : gset LItem) (inp : Symbol)
    : result (gset LItem) :=
  result_set ← for_each (goto_step gr inp) ∅ (elements item_set);
  closure gr (elements result_set).

(** ** get_canonical_collection *)

Record LrZeroItemTableEntry := MkEntry {
  propagates_to : gset (nat * Item);
  lookaheads : gset string;
}.

Abbreviation Table := (list (gmap Item LrZeroItemTableEntry)).

(** [table[s][it]] *)
Definition cell (table : Table) (s : nat) (it : Item) : result LrZeroItemTableEntry :=
  row ← index table s; getitem row it.

(** In-place mutation of the entry object [table[s][it]]. *)
Definition update_cell (table : Table) (s : nat) (it : Item)
    (f : LrZeroItemTableEntry → LrZeroItemTableEntry) : result Table :=
  row ← index table s;
  e ← getitem row it;
  Ok (<[s := <[it := f e]> row]> table).

Definition add_lookaheads (las : gset string) (e : LrZeroItemTableEntry) :=
  MkEntry (propagates_to e) (lookaheads e ∪ las).
Definition add_propagates_to (tgt : nat * Item) (e : LrZeroItemTableEntry) :=
  MkEntry (propagates_to e ∪ {[tgt]}) (lookaheads e).

(** [state_symbols = [x[1] for x, y in dfa.goto.items() if x[0] == i_state_id]] *)
Definition state_symbols (dfa : Automaton) (i_state_id : nat) : list Symbol :=
  omap (λ xy : nat * Symbol * nat,
          if decide (xy.1.1 = i_state_id) then Some xy.1.2 else None)
       (map_to_list (dfa_goto dfa)).

(** The innermost loop of steps 2 and 3, over the items of [closure_set]. *)
Definition spread_item (gr : Grammar) (i_state_id : nat) (i_item : Item)
    (sym : Symbol) (j_state_id : nat) (table : Table) (it : LItem) : result Table :=
  let '((prod_index, dot), next_symbol) := it in
  p ← index (productions gr) prod_index;
  let pbody := p.2 in
  if decide (dot = length pbody) then Ok table else
  s ← index pbody dot;
  if decide (s ≠ sym) then Ok table else
  let j_item := (prod_index, dot + 1) in
  if decide (next_symbol = free_symbol gr) then
    update_cell table i_state_id i_item (add_propagates_to (j_state_id, j_item))
  else
    update_cell table j_state_id j_item (add_lookaheads {[next_symbol]}).

Definition spread_symbol (gr : Grammar) (dfa : Automaton) (i_state_id : nat)
    (i_item : Item) (closure_set : gset LItem) (table : Table) (sym : Symbol)
    : result Table :=
  j_state_id ← getitem (dfa_goto dfa) (i_state_id, sym);
  for_each (spread_item gr i_state_id i_item sym j_state_id) table
           (elements closure_set).

Definition spread_kernel_item (gr : Grammar) (dfa : Automaton) (i_state_id : nat)
    (table : Table) (i_item : Item) : result Table :=
  closure_set ← closure gr [(i_item, free_symbol gr)];
  for_each (spread_symbol gr dfa i_state_id i_item closure_set) table
           (state_symbols dfa i_state_id).

Definition spread_state (gr : Grammar) (dfa : Automaton)
    (kstates : list (gset Item)) (table : Table) (i_state_id : nat) : result Table :=
  k ← index kstates i_state_id;
  for_each (spread_kernel_item gr dfa i_state_id) table (elements k).

(** Steps 1 to 3: the table with the seed, the spontaneous lookaheads and
    the propagation edges. *)
Definition initial_table (lr : LrZero) (gr : Grammar) : result Table :=
  let dfa := get_automaton lr gr in
  let kstates := kernels lr <$> states dfa in
  let n_states := length kstates in
  let table : Table :=
    (λ k : gset Item, gset_to_gmap (MkEntry ∅ ∅) k) <$> kstates in
  table ← update_cell table 0 (0, 0) (add_lookaheads {[end_of_input gr]});
  for_each (spread_state gr dfa kstates) table (seq 0 n_states).

(** Step 4, the body of the innermost loop: one propagation edge. *)
Definition propagate_edge (i_state_id : nat) (i_item : Item)
    (st : Table * bool) (tgt : nat * Item) : result (Table * bool) :=
  let '(j_state_id, j_item) := tgt in
  i_cell ← cell st.1 i_state_id i_item;
  j_cell ← cell st.1 j_state_id j_item;
  let j_cell_lookaheads_len := size (lookaheads j_cell) in
  table ← update_cell st.1 j_state_id j_item (add_lookaheads (lookaheads i_cell));
  j_cell' ← cell table j_state_id j_item;
  Ok (table, if decide (j_cell_lookaheads_len < size (lookaheads j_cell'))
             then true else st.2).

Definition propagate_item (i_state_id : nat) (st : Table * bool)
    (kv : Item * LrZeroItemTableEntry) : result (Table * bool) :=
  for_each (propagate_edge i_state_id kv.1) st (elements (propagates_to kv.2)).

Definition propagate_state (st : Table * bool) (i_state_id : nat)
    : result (Table * bool) :=
  row ← index st.1 i_state_id;
  for_each (propagate_item i_state_id) st (map_to_list row).

(** One turn of the [while repeat] loop: the table and the new [repeat]. *)
Definition propagate_pass (table : Table) : result (Table * bool) :=
  for_each propagate_state (table, false) (seq 0 (length table)).

(** The [while repeat] loop; one unit of fuel per pass. *)
Fixpoint propagate (fuel : nat) (table : Table) : result Table :=
  match fuel with
  | 0 => Timeout
  | S fuel' =>
      '(table', repeat) ← propagate_pass table;
      if repeat : bool then propagate fuel' table' else Ok table'
  end.

(** Number of kernel items over all states (the cells of the table). *)
Definition cell_count (table : Table) : nat := sum_list (size <$> table).

Definition propagate_fuel (gr : Grammar) (table : Table) : nat :=
  length (terminals gr ++ [end_of_input gr]) * cell_count table.

(** The table after step 4. *)
Definition propagated_table (lr : LrZero) (gr : Grammar) : result Table :=
  table ← initial_table lr gr;
  propagate (propagate_fuel gr table) table.

(** The kernel items of one state with their lookaheads. *)
Definition kernel_item_set (row : gmap Item LrZeroItemTableEntry) : gset LItem :=
  list_to_set
    (mbind (M := list)
       (λ kv : Item * LrZeroItemTableEntry,
          (λ sym : string, (kv.1, sym)) <$> elements (lookaheads kv.2))
       (map_to_list row)).

Fixpoint map_result {A B} (f : A → result B) (l : list A) : result (list B) :=
  match l with
  | [] => Ok []
  | x :: l' => y ← f x; ys ← map_result f l'; Ok (y :: ys)
  end.

Definition get_canonical_collection (lr : LrZero) (gr : Grammar)
    : result (list (gset LItem)) :=
  table ← propagated_table lr gr;
  map_result (λ row, closure gr (elements (kernel_item_set row))) table.

(** ** ParsingTable *)

Inductive TableEntry :=
  | shift (state_id : nat)
  | reduce (production_index : nat)
  | accept.

Global Instance TableEntry_eq_dec : EqDecision TableEntry.
Proof. solve_decision. Defined.
Global Instance TableEntry_countable : Countable TableEntry.
Proof.
  refine (inj_countable'
    (λ e, match e with
          | shift n => inl (inl n) | reduce n => inl (inr n) | accept => inr ()
          end)
    (λ x, match x with
          | inl (inl n) => shift n | inl (inr n) => reduce n | inr _ => accept
          end) _).
  by intros [].
Defined.

Abbreviation GotoTable := (list (gmap NonTerminal (option nat))).
Abbreviation ActionTable := (list (gmap string (gset TableEntry))).

Record ParsingTable := MkParsingTable {
  pt_terminals : list string;
  pt_nonterms : list NonTerminal;
  n_states : nat;
  pt_goto : GotoTable;
  action : ActionTable;
}.

Definition drop_lalr_one_itemset_lookaheads (itemset : gset LItem) : gset Item :=
  set_map fst itemset.

(** [{ccol_core[i]: i for i in range(len(ccol))}]: a later state with the
    same core replaces an earlier one. *)
Definition id_from_core (ccol_core : list (gset Item)) : gmap (gset Item) nat :=
  foldl (λ m (ic : nat * gset Item), <[ic.2 := ic.1]> m) ∅
        (zip (seq 0 (length ccol_core)) ccol_core).

Definition id_from_lr_one_state (ids : gmap (gset Item) nat) (itemset : gset LItem)
    : result nat :=
  getitem ids (drop_lalr_one_itemset_lookaheads itemset).

(** [self.action[state_id][terminal].add(entry)] *)
Definition action_add (act : ActionTable) (state_id : nat) (terminal : string)
    (entry : TableEntry) : result ActionTable :=
  row ← index act state_id;
  entries ← getitem row terminal;
  Ok (<[state_id := <[terminal := entries ∪ {[entry]}]> row]> act).

(** [self.goto[state_id][nt] = next_state_id] *)
Definition goto_set (gt : GotoTable) (state_id : nat) (nt : NonTerminal)
    (next_state_id : nat) : result GotoTable :=
  row ← index gt state_id;
  Ok (<[state_id := <[nt := Some next_state_id]> row]> gt).

(** One turn of [for item, next_symbol in ccol[state_id]]. *)
Definition setup_item (gr : Grammar) (ids : gmap (gset Item) nat)
    (ccol_state : gset LItem) (state_id : nat) (act : ActionTable) (it : LItem)
    : result ActionTable :=
  let '((prod_index, dot), next_symbol) := it in
  p ← index (productions gr) prod_index;
  let pbody := p.2 in
  if decide (dot < length pbody) then
    terminal ← index pbody dot;
    match terminal with
    | N _ => Ok act
    | T t =>
        next_state ← goto gr ccol_state terminal;
        if decide (size next_state = 0) then Ok act else
        next_state_id ← id_from_lr_one_state ids next_state;
        action_add act state_id t (shift next_state_id)
    end
  else if decide (prod_index = 0) then
    if decide (next_symbol = end_of_input gr)
    then action_add act state_id (end_of_input gr) accept
    else Raise AssertionError
  else action_add act state_id next_symbol (reduce prod_index).

(** One turn of [for nt in self.nonterms]. *)
Definition setup_nonterm (gr : Grammar) (ids : gmap (gset Item) nat)
    (ccol_state : gset LItem) (state_id : nat) (gt : GotoTable) (nt : NonTerminal)
    : result GotoTable :=
  next_state ← goto gr ccol_state (N nt);
  if decide (size next_state = 0) then Ok gt else
  next_state_id ← id_from_lr_one_state ids next_state;
  goto_set gt state_id nt next_state_id.

(** One turn of [for state_id in range(self.n_states)]. *)
Definition setup_state (gr : Grammar) (ids : gmap (gset Item) nat)
    (ccol : list (gset LItem)) (nts : list NonTerminal)
    (st : GotoTable * ActionTable) (state_id : nat)
    : result (GotoTable * ActionTable) :=
  ccol_state ← index ccol state_id;
  act ← for_each (setup_item gr ids ccol_state state_id) st.2 (elements ccol_state);
  gt ← for_each (setup_nonterm gr ids ccol_state state_id) st.1 nts;
  Ok (gt, act).

(** [ParsingTable.__setup_from_grammar], given the canonical collection. *)
Definition setup_from_collection (gr : Grammar) (ccol : list (gset LItem))
    : result ParsingTable :=
  let terminals := terminals gr ++ [end_of_input gr] in
  let nonterms := drop 1 (nonterms gr) in
  let n_states := length ccol in
  let ccol_core := drop_lalr_one_itemset_lookaheads <$> ccol in
  let ids := id_from_core ccol_core in
  let gt : GotoTable :=
    replicate n_states (gset_to_gmap None (list_to_set nonterms)) in
  let act : ActionTable :=
    replicate n_states (gset_to_gmap ∅ (list_to_set terminals)) in
  st ← for_each (setup_state gr ids ccol nonterms) (gt, act) (seq 0 n_states);
  Ok (MkParsingTable terminals nonterms n_states st.1 st.2).

(** [ParsingTable(gr)] *)
Definition setup_from_grammar (lr : LrZero) (gr : Grammar) : result ParsingTable :=
  ccol ← get_canonical_collection lr gr;
  setup_from_collection gr ccol.

(** ** The collaborators: FIRST sets and the LR(0) automaton *)

(** [pbody[dot]] of an item, when the dot is inside the body. *)
Definition symbol_at (gr : Grammar) (it : Item) : option Symbol :=
  p ← productions gr !! it.1; p.2 !! it.2.

Module Model.

(** Modelled from the spec: [Grammar.first_set], of which the repository
    file under study only has the calls.  "Returns the set of terminals that
    can begin a derivation of the sequence, including an empty-derivation
    marker when the whole sequence is nullable": every symbol that is not a
    nonterminal counts as a terminal, [None] is the marker. *)
Definition first_of_seq (ft : gmap NonTerminal (gset (option string)))
    : list Symbol → gset (option string) :=
  fix go seq :=
    match seq with
    | [] => {[None]}
    | T t :: _ => {[Some t]}
    | N n :: rest =>
        let f := default ∅ (ft !! n) in
        (f ∖ {[None]}) ∪ (if decide (None ∈ f) then go rest else ∅)
    end.

Definition first_round (prods : list (NonTerminal * list Symbol))
    (ft : gmap NonTerminal (gset (option string)))
    : gmap NonTerminal (gset (option string)) :=
  foldl (λ m (p : NonTerminal * list Symbol),
           <[p.1 := default ∅ (m !! p.1) ∪ first_of_seq m p.2]> m) ft prods.

Definition first_table (prods : list (NonTerminal * list Symbol))
    : gmap NonTerminal (gset (option string)) :=
  Nat.iter (S (length prods * S (length (mjoin (prods.*2)))))
           (first_round prods) ∅.

Definition first_set (prods : list (NonTerminal * list Symbol))
    : list Symbol → gset (option string) :=
  first_of_seq (first_table prods).

(** Modelled from the spec: the module [parsing.lr_zero], absent from the
    repository files under study.  LR(0) item sets are closed under
    expansion of the nonterminal after the dot; a transition on a symbol
    advances the items expecting it; the kernel items of a state are those
    "not purely introduced by closure": the start item and the items whose
    dot is not at the left end. *)
Definition lr0_expand (gr : Grammar) (st : gset Item) : gset Item :=
  st ∪ list_to_set
         (it ← elements st;
          match symbol_at gr it with
          | Some (N nt) =>
              match nonterm_offset gr !! nt with
              | Some off => (λ idx, (off + idx, 0)) <$> seq 0 (nt_n_productions nt)
              | None => []
              end
          | _ => []
          end).

Definition lr0_closure (gr : Grammar) (k : gset Item) : gset Item :=
  Nat.iter (length (productions gr)) (lr0_expand gr) k.

Definition lr0_advance (gr : Grammar) (st : gset Item) (x : Symbol) : gset Item :=
  list_to_set
    (omap (λ it : Item, if decide (symbol_at gr it = Some x)
                        then Some (it.1, S it.2) else None)
          (elements st)).

Definition lr0_symbols (gr : Grammar) (st : gset Item) : list Symbol :=
  remove_dups (omap (symbol_at gr) (elements st)).

(** The position of a state in the list of states found so far. *)
Fixpoint find_state (sts : list (gset Item)) (st : gset Item) (i : nat) : option nat :=
  match sts with
  | [] => None
  | s :: sts' => if decide (s = st) then Some i else find_state sts' st (S i)
  end.

Definition lr0_visit (gr : Grammar) (i : nat) (dfa : Automaton) (x : Symbol)
    : Automaton :=
  match states dfa !! i with
  | None => dfa
  | Some st =>
      let tgt := lr0_closure gr (lr0_advance gr st x) in
      match find_state (states dfa) tgt 0 with
      | Some j => MkAutomaton (states dfa) (<[(i, x) := j]> (dfa_goto dfa))
      | None => MkAutomaton (states dfa ++ [tgt])
                            (<[(i, x) := length (states dfa)]> (dfa_goto dfa))
      end
  end.

(** States are numbered in the order they are discovered, state 0 first. *)
Fixpoint lr0_explore (gr : Grammar) (fuel i : nat) (dfa : Automaton) : Automaton :=
  match fuel with
  | 0 => dfa
  | S fuel' =>
      match states dfa !! i with
      | None => dfa
      | Some st =>
          lr0_explore gr fuel' (S i)
            (foldl (lr0_visit gr i) dfa (lr0_symbols gr st))
      end
  end.

Definition get_automaton (fuel : nat) (gr : Grammar) : Automaton :=
  lr0_explore gr fuel 0 (MkAutomaton [lr0_closure gr {[(0, 0)]}] ∅).

Definition kernels (st : gset Item) : gset Item :=
  filter (λ it : Item, it.1 = 0 ∨ 0 < it.2) st.

Definition lr_zero (fuel : nat) : LrZero := MkLrZero (get_automaton fuel) kernels.

End Model.

(** ** Sample grammars *)

Module Samples.

Definition mk_grammar (prods : list (NonTerminal * list Symbol))
    (ts : list string) (nts : list NonTerminal)
    (offs : list (NonTerminal * nat)) : Grammar :=
  MkGrammar prods ts nts (list_to_map offs) (Model.first_set prods) "$" "#".

(** S' -> S;  S -> a *)
Definition S' := MkNonTerminal "S'" 1.
Definition S := MkNonTerminal "S" 1.
Definition g_single : Grammar :=
  mk_grammar [(S', [N S]); (S, [T "a"])] ["a"] [S'; S] [(S', 0); (S, 1)].

(** The textbook expression grammar:
    S' -> E;  E -> E + T | T;  T -> T * F | F;  F -> ( E ) | id *)
Definition E' := MkNonTerminal "E'" 1.
Definition E := MkNonTerminal "E" 2.
Definition Tm := MkNonTerminal "T" 2.
Definition F := MkNonTerminal "F" 2.
Definition g_expr : Grammar :=
  mk_grammar
    [(E', [N E]);
     (E, [N E; T "+"; N Tm]); (E, [N Tm]);
     (Tm, [N Tm; T "*"; N F]); (Tm, [N F]);
     (F, [T "("; N E; T ")"]); (F, [T "id"])]
    ["+"; "*"; "("; ")"; "id"] [E'; E; Tm; F]
    [(E', 0); (E, 1); (Tm, 3); (F, 5)].

End Samples.

(** ** Specification vocabulary *)

(** The items the two inner loops of [closure] try to add for one element
    of [current]: [closure_step] is [add_new] folded over them. *)
Definition item_expansion (gr : Grammar) (it : LItem) : result (list LItem) :=
  let '((prod_index, dot), lookahead) := it in
  p ← index (productions gr) prod_index;
  let pbody := p.2 in
  if decide (dot = length pbody) then Ok [] else
  sym ← index pbody dot;
  match sym with
  | T _ => Ok []
  | N nt =>
      if decide (nt ∈ nonterms gr) then
        nt_offset ← getitem (nonterm_offset gr) nt;
        Ok (expansion nt_offset (nt_n_productions nt)
              (following_terminals gr (drop (dot + 1) pbody ++ [T lookahead])))
      else Ok []
  end.

(** [x] was expanded without an exception and its expansion lies in [s]. *)
Definition expanded (gr : Grammar) (s : gset LItem) (x : LItem) : Prop :=
  ∃ l, item_expansion gr x = Ok l ∧ ∀ y, y ∈ l → y ∈ s.

(** The items obtained from [i] by finitely many expansions. *)
Inductive derives (gr : Grammar) (i : gset LItem) : LItem → Prop :=
  | derives_init x : x ∈ i → derives gr i x
  | derives_step x l y :
      derives gr i x → item_expansion gr x = Ok l → y ∈ l → derives gr i y.

(** The expansion rule in the words of the specification: for every item of
    the set whose symbol at the dot is a nonterminal, every production of
    that nonterminal and every terminal of FIRST(suffix after the dot,
    lookahead) other than the empty-derivation marker, the item (that
    production, dot 0, that terminal) is in the set.  The productions of a
    nonterminal are the [len(nt.productions)] ones from its offset on. *)
Definition closed_under_expansion (gr : Grammar) (s : gset LItem) : Prop :=
  ∀ prod_index dot lookahead p nt nt_offset idx term,
    ((prod_index, dot), lookahead) ∈ s →
    productions gr !! prod_index = Some p →
    p.2 !! dot = Some (N nt) →
    nonterm_offset gr !! nt = Some nt_offset →
    idx < nt_n_productions nt →
    Some term ∈ first_set gr (drop (S dot) p.2 ++ [T lookahead]) →
    ((nt_offset + idx, 0), term) ∈ s.

(** An item of the data model: a production index and a dot position in
    [0, body length]. *)
Definition valid_item (gr : Grammar) (it : Item) : Prop :=
  match productions gr !! it.1 with
  | Some p => it.2 ≤ length p.2
  | None => False
  end.

(** ** The contract of the grammar object *)

(** A nonterminal used in a body is one of [gr.nonterms], its productions
    are [nonterm_offset[nt] ...] within [gr.productions], and it is not the
    augmented start symbol, whose only production is production 0. *)
Definition nonterminal_ok (gr : Grammar) (nt : NonTerminal) : Prop :=
  nt ∈ nonterms gr ∧
  match nonterm_offset gr !! nt with
  | Some off => 0 < off ∧ off + nt_n_productions nt ≤ length (productions gr)
  | None => False
  end.

Definition symbol_ok (gr : Grammar) (s : Symbol) : Prop :=
  match s with
  | T t => t ∈ terminals gr
  | N nt => nonterminal_ok gr nt
  end.

(** Bodies are made of the grammar's symbols; the end marker and the free
    symbol are distinct from each other and from all terminals. *)
Definition grammar_ok (gr : Grammar) : Prop :=
  Forall (λ p : NonTerminal * list Symbol, Forall (symbol_ok gr) p.2)
         (productions gr)
  ∧ free_symbol gr ∉ terminals gr
  ∧ end_of_input gr ∉ terminals gr
  ∧ free_symbol gr ≠ end_of_input gr.

Global Instance nonterminal_ok_dec gr nt : Decision (nonterminal_ok gr nt).
Proof. unfold nonterminal_ok. destruct (nonterm_offset gr !! nt); apply _. Defined.
Global Instance symbol_ok_dec gr s : Decision (symbol_ok gr s).
Proof. destruct s; simpl; apply _. Defined.
Global Instance grammar_ok_dec gr : Decision (grammar_ok gr).
Proof. unfold grammar_ok. apply _. Defined.

(** What the callers rely on from [gr.first_set]: it only returns terminals
    of the grammar or of the sequence itself, and a sequence ending in a
    terminal [x] starts with what its front starts with, plus [x] when the
    front is nullable. *)
Record first_set_ok (gr : Grammar) : Prop := {
  first_set_sound seq t :
    Some t ∈ first_set gr seq → t ∈ terminals gr ∨ T t ∈ seq;
  first_set_snoc seq x :
    first_set gr (seq ++ [T x]) =
      (first_set gr seq ∖ {[None]})
        ∪ (if decide (None ∈ first_set gr seq) then {[Some x]} else ∅);
}.

(** ** Auxiliary notions for the proofs about closure *)

(** The state [(result, new_elements)] of one turn of the [while] loop,
    started from [res0]. *)
Definition grown (res0 : gset LItem) (st : gset LItem * list LItem) : Prop :=
  st.1 = res0 ∪ list_to_set st.2 ∧ NoDup st.2 ∧ ∀ x, x ∈ st.2 → x ∉ res0.

(** Every item a closure of [item_set] can hold. *)
Definition item_universe (gr : Grammar) (item_set : list LItem) : gset LItem :=
  list_to_set item_set
    ∪ list_to_set (expansion 0 (length (productions gr))
                     (elements (lookahead_universe gr item_set))).

Definition in_universe (gr : Grammar) (item_set : list LItem) (x : LItem) : Prop :=
  valid_item gr x.1 ∧ x.2 ∈ lookahead_universe gr item_set
  ∧ x ∈ item_universe gr item_set.

(** Every terminal recorded in a table of FIRST sets lies in [ts]. *)
Definition table_sound (ts : gset string)
    (ft : gmap NonTerminal (gset (option string))) : Prop :=
  ∀ n f t, ft !! n = Some f → Some t ∈ f → t ∈ ts.

(** ** Auxiliary notions for the proofs about the lookahead table *)

(** The entry of a kernel item of a state, if the table has one. *)
Definition table_lookup (table : Table) (s : nat) (it : Item)
    : option LrZeroItemTableEntry :=
  row ← table !! s; row !! it.

(** Two tables with the same states and the same kernel items per state. *)
Definition same_shape (t t' : Table) : Prop :=
  length t = length t' ∧
  ∀ s it, is_Some (table_lookup t s it) ↔ is_Some (table_lookup t' s it).

(** The table [t'] has the cells and the propagation edges of [t]; its
    lookahead sets contain those of [t], and every lookahead of [t'] is a
    lookahead of some cell of [t]. *)
Definition grows (t t' : Table) : Prop :=
  same_shape t t'
  ∧ (∀ s it e e', table_lookup t s it = Some e → table_lookup t' s it = Some e' →
       propagates_to e' = propagates_to e ∧ lookaheads e ⊆ lookaheads e')
  ∧ (∀ s it e' la, table_lookup t' s it = Some e' → la ∈ lookaheads e' →
       ∃ s0 it0 e0, table_lookup t s0 it0 = Some e0 ∧ la ∈ lookaheads e0).

(** The edge from the cell [(s, it)] to [tgt] is saturated: the target
    holds every lookahead of the source. *)
Definition edge_saturated (t : Table) (s : nat) (it : Item) (tgt : nat * Item)
    : Prop :=
  ∃ e e', table_lookup t s it = Some e ∧ table_lookup t tgt.1 tgt.2 = Some e'
          ∧ lookaheads e ⊆ lookaheads e'.

(** All the edges of the table are saturated. *)
Definition saturated (t : Table) : Prop :=
  ∀ s it e tgt, table_lookup t s it = Some e → tgt ∈ propagates_to e →
    edge_saturated t s it tgt.

(** A run that leaves [repeat] false started with it false and has not
    changed the table. *)
Definition quiet (st st' : Table * bool) : Prop :=
  st'.2 = false → st.2 = false ∧ st'.1 = st.1.

(** ** Auxiliary notions for the proofs about the parsing table *)

(** A table entry refers to a state of the collection or to a production of
    the grammar other than production 0. *)
Definition entry_in_range (gr : Grammar) (n_states : nat) (e : TableEntry) : Prop :=
  match e with
  | shift j => j < n_states
  | reduce p => p ≠ 0 ∧ p < length (productions gr)
  | accept => True
  end.

(** Every row of a table of [n] rows has exactly the keys [keys]. *)
Definition rows_have_keys `{Countable K} {V} (n : nat) (keys : gset K)
    (tbl : list (gmap K V)) : Prop :=
  length tbl = n ∧ ∀ s row, tbl !! s = Some row → dom row = keys.

Definition action_in_range (gr : Grammar) (n : nat) (act : ActionTable) : Prop :=
  ∀ s row t es e, act !! s = Some row → row !! t = Some es → e ∈ es →
    entry_in_range gr n e.

Definition goto_in_range (n : nat) (gt : GotoTable) : Prop :=
  ∀ s row nt j, gt !! s = Some row → row !! nt = Some (Some j) → j < n.

(** An item [closure] has nothing to add for: its production exists and its
    dot is at the end of the body, or before a terminal, or before a
    nonterminal object that is not one of [gr.nonterms]. *)
Definition inert (gr : Grammar) (x : LItem) : Prop :=
  ∃ p, productions gr !! x.1.1 = Some p
       ∧ (x.1.2 = length p.2
          ∨ (∃ t, p.2 !! x.1.2 = Some (T t))
          ∨ (∃ nt, p.2 !! x.1.2 = Some (N nt) ∧ nt ∉ nonterms gr)).

(** * Proofs *)

(** ** The result monad and [for] loops *)

Lemma bind_Ok {A B} (f : A → result B) (m : result A) (b : B) :
  m ≫= f = Ok b ↔ ∃ a, m = Ok a ∧ f a = Ok b.
Proof. destruct m; simpl; naive_solver. Qed.

Lemma bind_Raise {A B} (f : A → result B) (m : result A) (e : exn) :
  m ≫= f = Raise e ↔ m = Raise e ∨ ∃ a, m = Ok a ∧ f a = Raise e.
Proof. destruct m; simpl; naive_solver. Qed.

Lemma bind_Timeout {A B} (f : A → result B) (m : result A) :
  m ≫= f = Timeout ↔ m = Timeout ∨ ∃ a, m = Ok a ∧ f a = Timeout.
Proof. destruct m; simpl; naive_solver. Qed.

Lemma index_Ok {A} (l : list A) (i : nat) (x : A) :
  index l i = Ok x ↔ l !! i = Some x.
Proof. unfold index. destruct (l !! i); naive_solver. Qed.

Lemma getitem_Ok `{Countable K} {V} (d : gmap K V) (k : K) (x : V) :
  getitem d k = Ok x ↔ d !! k = Some x.
Proof. unfold getitem. destruct (d !! k); naive_solver. Qed.

Lemma index_not_Timeout {A} (l : list A) (i : nat) : index l i ≠ Timeout.
Proof. unfold index. by destruct (l !! i). Qed.

Lemma getitem_not_Timeout `{Countable K} {V} (d : gmap K V) (k : K) :
  getitem d k ≠ Timeout.
Proof. unfold getitem. by destruct (d !! k). Qed.

(** Inversion of a successful computation written with binds. *)
Ltac inv_ok :=
  repeat match goal with
  | H : Ok _ = Ok _ |- _ => injection H as H; try subst
  | H : Raise _ = Ok _ |- _ => discriminate H
  | H : Timeout = Ok _ |- _ => discriminate H
  | H : _ ≫= _ = Ok _ |- _ =>
      let a := fresh "a" in let Ha := fresh "Ha" in
      apply bind_Ok in H as (a & Ha & H)
  | H : index _ _ = Ok _ |- _ => apply index_Ok in H
  | H : getitem _ _ = Ok _ |- _ => apply getitem_Ok in H
  end.

Section for_each.
Context {A S : Type} (f : S → A → result S).

Lemma for_each_app (s : S) (l1 l2 : list A) :
  for_each f s (l1 ++ l2) = for_each f s l1 ≫= λ s', for_each f s' l2.
Proof.
  revert s. induction l1 as [|x l1 IH]; intros s; simpl; [done|].
  destruct (f s x); simpl; auto.
Qed.

(** A property kept by every turn is kept by the loop. *)
Lemma for_each_invariant (P : S → Prop) (l : list A) (s s' : S) :
  (∀ s x s', x ∈ l → P s → f s x = Ok s' → P s') →
  P s → for_each f s l = Ok s' → P s'.
Proof.
  revert s. induction l as [|x l IH]; intros s Hstep HP Hrun; simpl in *.
  - by inv_ok.
  - inv_ok. eapply IH; [|eapply Hstep; [|done..]|done]; [|set_solver].
    intros ????; apply Hstep. set_solver.
Qed.

(** A preorder followed by every turn is followed by the loop, and what
    a turn establishes for its element, and later turns keep, holds at
    the end for every element. *)
Lemma for_each_effect (R : S → S → Prop) `{!PreOrder R}
    (E : A → S → Prop) (l : list A) (s s' : S) :
  (∀ s x s', x ∈ l → f s x = Ok s' → R s s' ∧ E x s') →
  (∀ x s s', E x s → R s s' → E x s') →
  for_each f s l = Ok s' → R s s' ∧ ∀ x, x ∈ l → E x s'.
Proof.
  intros Hstep Hkeep. revert s.
  induction l as [|x l IH]; intros s Hrun; simpl in *.
  - inv_ok. split; [done|]. intros x Hx. by apply elem_of_nil in Hx.
  - inv_ok. destruct (Hstep s x a) as [HR HE]; [left|done|].
    destruct IH with (s := a) as [HR' HE']; [|done|].
    { intros ????; apply Hstep. by right. }
    split; [by etrans|].
    intros y [->|Hy]%elem_of_cons; [by eapply Hkeep|by apply HE'].
Qed.

(** The loop succeeds when every turn does, from any state satisfying an
    invariant. *)
Lemma for_each_succeeds (P : S → Prop) (l : list A) (s : S) :
  (∀ s x, x ∈ l → P s → ∃ s', f s x = Ok s' ∧ P s') →
  P s → ∃ s', for_each f s l = Ok s' ∧ P s'.
Proof.
  revert s. induction l as [|x l IH]; intros s Hstep HP; simpl.
  - by exists s.
  - destruct (Hstep s x) as (s1 & Hs1 & HP1); [left|done|].
    rewrite Hs1. simpl. apply IH; [|done].
    intros ????; apply Hstep; [by right|done].
Qed.

(** An exception of the loop is the exception of one of its turns. *)
Lemma for_each_Raise (l : list A) (s : S) (e : exn) :
  for_each f s l = Raise e → ∃ s0 x, x ∈ l ∧ f s0 x = Raise e.
Proof.
  revert s. induction l as [|x l IH]; intros s Hrun; simpl in *; [done|].
  apply bind_Raise in Hrun as [Hx|(a & Ha & Hrun)].
  - exists s, x. split; [left|done].
  - destruct (IH _ Hrun) as (s0 & y & Hy & Hf). exists s0, y. split; [by right|done].
Qed.

Lemma for_each_Timeout (l : list A) (s : S) :
  for_each f s l = Timeout → ∃ s0 x, x ∈ l ∧ f s0 x = Timeout.
Proof.
  revert s. induction l as [|x l IH]; intros s Hrun; simpl in *; [done|].
  apply bind_Timeout in Hrun as [Hx|(a & Ha & Hrun)].
  - exists s, x. split; [left|done].
  - destruct (IH _ Hrun) as (s0 & y & Hy & Hf). exists s0, y. split; [by right|done].
Qed.
End for_each.

(** ** closure *)

Lemma closure_step_expansion gr st it :
  closure_step gr st it = item_expansion gr it ≫= λ l, Ok (foldl add_new st l).
Proof.
  destruct it as [[prod_index dot] lookahead]. unfold closure_step, item_expansion.
  destruct (index (productions gr) prod_index) as [p| |]; simpl; [|done..].
  case_decide; [done|].
  destruct (index p.2 dot) as [[t|nt]| |]; simpl; [done| |done..].
  case_decide; [|done].
  by destruct (getitem (nonterm_offset gr) nt).
Qed.

(** What one element of [current] may add. *)
Lemma elem_of_expansion nt_offset n terms (y : LItem) :
  y ∈ expansion nt_offset n terms ↔
  ∃ idx term, idx < n ∧ term ∈ terms ∧ y = ((nt_offset + idx, 0), term).
Proof.
  unfold expansion. rewrite list_elem_of_bind. split.
  - intros (idx & Hy & Hidx). apply elem_of_seq in Hidx.
    apply list_elem_of_bind in Hy as (term & Hy & Hterm).
    apply list_elem_of_singleton in Hy. exists idx, term. split; [lia|done].
  - intros (idx & term & Hidx & Hterm & ->). exists idx. split.
    + apply list_elem_of_bind. exists term. split; [left|done].
    + apply elem_of_seq. lia.
Qed.

Lemma elem_of_following_terminals gr seq t :
  t ∈ following_terminals gr seq ↔ Some t ∈ first_set gr seq.
Proof.
  unfold following_terminals. rewrite list_elem_of_omap. split.
  - intros (o & Ho & Hid). apply elem_of_elements in Ho.
    simpl in Hid. subst o. set_solver.
  - intros Ht. exists (Some t). split; [|done].
    apply elem_of_elements. set_solver.
Qed.

Lemma item_expansion_elem gr prod_index dot lookahead l y :
  item_expansion gr ((prod_index, dot), lookahead) = Ok l → y ∈ l →
  ∃ p nt nt_offset idx term,
    productions gr !! prod_index = Some p ∧ p.2 !! dot = Some (N nt) ∧
    nt ∈ nonterms gr ∧ nonterm_offset gr !! nt = Some nt_offset ∧
    idx < nt_n_productions nt ∧
    Some term ∈ first_set gr (drop (S dot) p.2 ++ [T lookahead]) ∧
    y = ((nt_offset + idx, 0), term).
Proof.
  unfold item_expansion. intros Hl Hy. inv_ok. rename a into p.
  case_decide; inv_ok; [by apply elem_of_nil in Hy|].
  destruct a as [t|nt]; inv_ok; [by apply elem_of_nil in Hy|].
  case_decide; inv_ok; [|by apply elem_of_nil in Hy].
  apply elem_of_expansion in Hy as (idx & term & Hidx & Hterm & ->).
  apply elem_of_following_terminals in Hterm.
  replace (dot + 1) with (S dot) in Hterm by lia.
  by exists p, nt, a, idx, term.
Qed.

Lemma item_expansion_intro gr prod_index dot lookahead p nt nt_offset idx term :
  productions gr !! prod_index = Some p → p.2 !! dot = Some (N nt) →
  nt ∈ nonterms gr → nonterm_offset gr !! nt = Some nt_offset →
  idx < nt_n_productions nt →
  Some term ∈ first_set gr (drop (S dot) p.2 ++ [T lookahead]) →
  ∃ l, item_expansion gr ((prod_index, dot), lookahead) = Ok l ∧
       ((nt_offset + idx, 0), term) ∈ l.
Proof.
  intros Hp Hdot Hnt Hoff Hidx Hterm. unfold item_expansion, index, getitem.
  rewrite Hp. simpl. rewrite Hdot. simpl.
  apply lookup_lt_Some in Hdot as Hlt.
  rewrite decide_False by lia. simpl. rewrite decide_True by done.
  rewrite Hoff. simpl. eexists. split; [done|].
  apply elem_of_expansion. exists idx, term. split_and!; [done| |done].
  apply elem_of_following_terminals. by replace (dot + 1) with (S dot) by lia.
Qed.

Lemma add_new_grown res0 st x : grown res0 st → grown res0 (add_new st x).
Proof.
  intros (Hres & Hnd & Hnew). unfold add_new. case_decide as Hx; [done|].
  split_and!; simpl.
  - rewrite Hres, list_to_set_app_L. set_solver.
  - apply NoDup_app. split_and!; [done| |apply NoDup_singleton].
    intros y Hy ->%list_elem_of_singleton. apply Hx. rewrite Hres. set_solver.
  - intros y [Hy| ->%list_elem_of_singleton]%elem_of_app; [by apply Hnew|].
    rewrite Hres in Hx. set_solver.
Qed.

Lemma foldl_add_new_grown res0 st l : grown res0 st → grown res0 (foldl add_new st l).
Proof. revert st. induction l; simpl; auto using add_new_grown. Qed.

Lemma add_new_fst st x : (add_new st x).1 = {[x]} ∪ st.1.
Proof. unfold add_new. case_decide; simpl; set_solver. Qed.

Lemma foldl_add_new_fst st l : (foldl add_new st l).1 = st.1 ∪ list_to_set l.
Proof.
  revert st. induction l as [|x l IH]; intros st; simpl; [set_solver|].
  rewrite IH, add_new_fst. set_solver.
Qed.

Lemma foldl_add_new_snd st l y :
  y ∈ (foldl add_new st l).2 → y ∈ st.2 ∨ y ∈ l.
Proof.
  revert st. induction l as [|x l IH]; intros st; simpl; [by left|].
  intros [Hy|Hy]%IH; [|right; by right].
  unfold add_new in Hy. case_decide; simpl in Hy; [by left|].
  apply elem_of_app in Hy as [Hy|Hy%list_elem_of_singleton]; [by left|].
  right. subst. left.
Qed.

Lemma foldl_add_new_closed (s : gset LItem) l :
  (∀ y, y ∈ l → y ∈ s) → foldl add_new (s, []) l = (s, []).
Proof.
  induction l as [|x l IH]; intros Hl; simpl; [done|].
  unfold add_new at 2. simpl. rewrite decide_True by (apply Hl; left).
  apply IH. intros y Hy. apply Hl. by right.
Qed.

Local Instance fst_subseteq_preorder {A} :
  PreOrder (λ s s' : gset LItem * A, s.1 ⊆ s'.1).
Proof. split; [by intros ?|]. intros ???; set_solver. Qed.

(** One turn of the [while] loop. *)
Lemma closure_turn gr res cur st :
  for_each (closure_step gr) (res, []) cur = Ok st →
  grown res st ∧
  (∀ x, x ∈ cur → expanded gr st.1 x) ∧
  (∀ y, y ∈ st.2 → ∃ x l, x ∈ cur ∧ item_expansion gr x = Ok l ∧ y ∈ l).
Proof.
  intros Hrun. split_and!.
  - revert Hrun. apply for_each_invariant.
    + intros s x s' _ Hs Hstep. rewrite closure_step_expansion in Hstep.
      inv_ok. by apply foldl_add_new_grown.
    + split_and!; simpl; [set_solver|constructor|by intros ? ?%elem_of_nil].
  - eapply (for_each_effect _ (λ s s' : gset LItem * list LItem, s.1 ⊆ s'.1)
              (λ x s, expanded gr s.1 x)); [| |done].
    + intros s x s' _ Hstep. rewrite closure_step_expansion in Hstep. inv_ok.
      rewrite foldl_add_new_fst. split; [set_solver|].
      exists a. split; [done|]. set_solver.
    + intros x s s' (l & Hl & Hsub) Hss'. exists l. split; [done|]. set_solver.
  - revert Hrun.
    apply (for_each_invariant _
      (λ st, ∀ y, y ∈ st.2 → ∃ x l, x ∈ cur ∧ item_expansion gr x = Ok l ∧ y ∈ l)).
    + intros s x s' Hx Hs Hstep y Hy. rewrite closure_step_expansion in Hstep.
      inv_ok. apply foldl_add_new_snd in Hy as [Hy|Hy]; [by apply Hs|].
      by exists x, a.
    + by intros y ?%elem_of_nil.
Qed.

Lemma derives_mono (gr : Grammar) (i i' : gset LItem) y :
  (∀ x, x ∈ i → derives gr i' x) → derives gr i y → derives gr i' y.
Proof.
  intros Hi. induction 1 as [x Hx|x l y _ IH Hl Hy]; [by apply Hi|].
  by eapply derives_step.
Qed.

Lemma closure_loop_nil gr fuel res : closure_loop gr fuel res [] = Ok res.
Proof. by destruct fuel. Qed.

Lemma closure_loop_turn gr fuel res cur :
  cur ≠ [] →
  closure_loop gr (S fuel) res cur =
    for_each (closure_step gr) (res, []) cur ≫=
      λ st, closure_loop gr fuel st.1 st.2.
Proof. by destruct cur. Qed.

Lemma closure_loop_spec gr fuel res cur s :
  (∀ x, x ∈ cur → x ∈ res) →
  closure_loop gr fuel res cur = Ok s →
  res ⊆ s ∧
  (∀ y, y ∈ s → derives gr res y) ∧
  (∀ x, x ∈ s → x ∈ res ∧ x ∉ cur ∨ expanded gr s x).
Proof.
  revert res cur. induction fuel as [|fuel IH]; intros res cur Hcur Hrun.
  - destruct cur; simpl in Hrun; [|done]. inv_ok.
    split_and!; [done|by constructor|]. intros x Hx. left. split; [done|].
    by intros ?%elem_of_nil.
  - destruct (decide (cur = [])) as [->|Hne].
    { rewrite closure_loop_nil in Hrun. inv_ok.
      split_and!; [done|by constructor|]. intros x Hx. left.
      split; [done|]. by intros ?%elem_of_nil. }
    rewrite closure_loop_turn in Hrun by done.
    inv_ok. destruct a as [res' new].
    apply closure_turn in Ha as ((Hres' & Hnd & Hnew) & Hexp & Horigin).
    simpl in *. apply IH in Hrun as (Hsub & Hder & Hclosed).
    2:{ intros x Hx. rewrite Hres'. set_solver. }
    split_and!.
    + rewrite Hres' in Hsub. set_solver.
    + intros y Hy. eapply derives_mono; [|by apply Hder].
      intros x. rewrite Hres'. intros [Hx|Hx%elem_of_list_to_set]%elem_of_union.
      * by constructor.
      * destruct (Horigin x Hx) as (x0 & l & Hx0 & Hl & Hxl).
        eapply derives_step; [|done..]. constructor. by apply Hcur.
    + intros x Hx. destruct (Hclosed x Hx) as [[Hxres Hxnew]|Hx']; [|by right].
      destruct (decide (x ∈ cur)) as [Hxc|Hxc].
      * right. destruct (Hexp x Hxc) as (l & Hl & Hlsub). exists l.
        split; [done|]. set_solver.
      * left. split; [|done]. rewrite Hres' in Hxres. set_solver.
Qed.

(** The result of [closure], when it returns: it contains the input, every
    item of it was expanded into it, and everything in it was derived. *)
Lemma closure_Ok gr item_set s :
  closure gr item_set = Ok s →
  list_to_set item_set ⊆ s ∧
  (∀ x, x ∈ s → expanded gr s x) ∧
  (∀ y, y ∈ s → derives gr (list_to_set item_set) y).
Proof.
  unfold closure. intros Hrun. apply closure_loop_spec in Hrun; [|set_solver].
  destruct Hrun as (Hsub & Hder & Hclosed). split_and!; [done| |done].
  intros x Hx. destruct (Hclosed x Hx) as [[Hx1 Hx2]|]; [|done]. set_solver.
Qed.

Lemma closure_elem gr item_set s y :
  closure gr item_set = Ok s → (y ∈ s ↔ derives gr (list_to_set item_set) y).
Proof.
  intros Hrun. destruct (closure_Ok _ _ _ Hrun) as (Hsub & Hexp & Hder).
  split; [by apply Hder|].
  induction 1 as [x Hx|x l y _ IH Hl Hy]; [by apply Hsub|].
  destruct (Hexp x IH) as (l' & Hl' & Hsub'). apply Hsub'. congruence.
Qed.

(** A set all of whose items are expanded into it is returned unchanged. *)
Lemma closure_of_closed (gr : Grammar) (s : gset LItem) :
  (∀ x, x ∈ s → expanded gr s x) → closure gr (elements s) = Ok s.
Proof.
  intros Hexp. unfold closure, closure_fuel. rewrite list_to_set_elements_L.
  destruct (decide (elements s = [])) as [->|Hne]; [done|].
  rewrite closure_loop_turn by done.
  assert (∀ l0, (∀ x, x ∈ l0 → x ∈ s) →
            for_each (closure_step gr) (s, []) l0 = Ok (s, [])) as Hgen.
  { induction l0 as [|x l0 IH]; intros Hl0; simpl; [done|].
    rewrite closure_step_expansion.
    destruct (Hexp x) as (lx & Hlx & Hsub); [apply Hl0; left|].
    rewrite Hlx. simpl. rewrite foldl_add_new_closed by done.
    apply IH. intros y Hy. apply Hl0. by right. }
  rewrite Hgen; [|intros x; by rewrite elem_of_elements].
  simpl. apply closure_loop_nil.
Qed.

(** ** Termination of closure *)

Lemma length_expansion nt_offset n terms :
  length (expansion nt_offset n terms) = n * length terms.
Proof.
  unfold expansion.
  assert (∀ start, length (seq start n ≫= λ idx : nat,
            terms ≫= λ term : string, [((nt_offset + idx, 0), term)])
          = n * length terms) as Hgen; [|apply Hgen].
  induction n as [|n IH]; intros start; simpl; [done|].
  rewrite length_app, IH. f_equal. clear IH.
  induction terms as [|t terms IHt]; [done|].
  rewrite bind_cons. simpl. by rewrite IHt.
Qed.

Lemma size_list_to_set_le `{Countable A} (l : list A) :
  size (list_to_set l : gset A) ≤ length l.
Proof.
  induction l as [|x l IH]; simpl; [done|].
  destruct (decide (x ∈ (list_to_set l : gset A))).
  - replace ({[x]} ∪ list_to_set l : gset A) with (list_to_set l : gset A)
      by set_solver. lia.
  - rewrite size_union, size_singleton by set_solver. lia.
Qed.

Lemma elem_of_body_terminals gr p t :
  p ∈ productions gr → T t ∈ p.2 → t ∈ body_terminals gr.
Proof.
  intros Hp Ht. unfold body_terminals. apply list_elem_of_bind.
  exists p. split; [|done]. apply list_elem_of_omap. by exists (T t).
Qed.

Lemma symbol_ok_at gr prod_index p dot s :
  grammar_ok gr → productions gr !! prod_index = Some p → p.2 !! dot = Some s →
  symbol_ok gr s.
Proof.
  intros (Hbodies & _) Hp Hs.
  eapply Forall_lookup_1 in Hbodies; [|done]. simpl in Hbodies.
  by eapply Forall_lookup_1 in Hbodies.
Qed.

Lemma item_expansion_in_universe gr item_set x :
  grammar_ok gr → first_set_ok gr → in_universe gr item_set x →
  ∃ l, item_expansion gr x = Ok l ∧ ∀ y, y ∈ l → in_universe gr item_set y.
Proof.
  intros Hgr Hfirst (Hvalid & Hla & _).
  destruct x as [[prod_index dot] lookahead]. unfold valid_item in Hvalid.
  simpl in *. destruct (productions gr !! prod_index) as [p|] eqn:Hp; [|done].
  unfold item_expansion, index. rewrite Hp. simpl.
  case_decide as Hdot; [exists []; split; [done|by intros ? ?%elem_of_nil]|].
  destruct (p.2 !! dot) as [sym|] eqn:Hsym.
  2:{ apply lookup_ge_None in Hsym. lia. }
  simpl. destruct sym as [t|nt].
  { exists []. split; [done|]. by intros ? ?%elem_of_nil. }
  case_decide as Hnt; [|exists []; split; [done|by intros ? ?%elem_of_nil]].
  pose proof (symbol_ok_at _ _ _ _ _ Hgr Hp Hsym) as [_ Hoff]. simpl in Hoff.
  unfold getitem. destruct (nonterm_offset gr !! nt) as [off|]; [|done].
  simpl. eexists. split; [done|].
  intros y (idx & term & Hidx & Hterm & ->)%elem_of_expansion.
  apply elem_of_following_terminals in Hterm.
  assert (term ∈ lookahead_universe gr item_set) as Hterm'.
  { apply (first_set_sound _ Hfirst) in Hterm as [Hterm|Hterm].
    - unfold lookahead_universe. set_solver.
    - apply elem_of_app in Hterm as [Hterm|Hterm%list_elem_of_singleton].
      + apply list_elem_of_lookup in Hterm as [i Hi].
        rewrite lookup_drop in Hi. apply list_elem_of_lookup_2 in Hi.
        apply list_elem_of_lookup_2 in Hp.
        pose proof (elem_of_body_terminals _ _ _ Hp Hi).
        unfold lookahead_universe. set_solver.
      + by injection Hterm as ->. }
  split_and!; simpl.
  - unfold valid_item. simpl.
    destruct (productions gr !! (off + idx)) eqn:Hn; [lia|].
    apply lookup_ge_None in Hn. lia.
  - done.
  - unfold item_universe. apply elem_of_union_r, elem_of_list_to_set.
    apply elem_of_expansion. exists (off + idx), term.
    split_and!; [lia|by apply elem_of_elements|done].
Qed.

Lemma closure_loop_terminates gr item_set fuel res cur :
  grammar_ok gr → first_set_ok gr →
  (∀ x, x ∈ res → in_universe gr item_set x) →
  (∀ x, x ∈ cur → x ∈ res) →
  size (item_universe gr item_set) - size res < fuel ∨ cur = [] →
  ∃ s, closure_loop gr fuel res cur = Ok s.
Proof.
  intros Hgr Hfirst. revert res cur.
  induction fuel as [|fuel IH]; intros res cur Hres Hcur Hfuel.
  { destruct Hfuel as [?| ->]; [lia|]. by exists res. }
  destruct (decide (cur = [])) as [->|Hne]; [by exists res|].
  destruct Hfuel as [Hfuel|?]; [|done].
  rewrite closure_loop_turn by done.
  destruct (for_each_succeeds (closure_step gr)
              (λ st, ∀ x, x ∈ st.1 → in_universe gr item_set x) cur (res, []))
    as ([res' new] & Hturn & Hres'); [|done|].
  { intros st x Hx Hst. rewrite closure_step_expansion.
    destruct (item_expansion_in_universe gr item_set x) as (l & -> & Hl);
      [done|done|by apply Hres, Hcur|].
    simpl. eexists. split; [done|]. intros y. rewrite foldl_add_new_fst.
    intros [Hy|Hy%elem_of_list_to_set]%elem_of_union; [by apply Hst|by apply Hl]. }
  rewrite Hturn. simpl in *.
  apply closure_turn in Hturn as ((Hgrown & Hnd & Hnew) & _ & _). simpl in *.
  apply IH; [done|rewrite Hgrown; set_solver|].
  destruct new as [|n new]; [by right|left].
  assert (size res' = size res + length (n :: new)) as Hsize.
  { rewrite Hgrown, size_union, size_list_to_set by set_solver. done. }
  assert (size res' ≤ size (item_universe gr item_set)).
  { apply subseteq_size. intros x Hx. by apply Hres'. }
  simpl in Hsize. lia.
Qed.

(** [closure] returns for well-formed grammars and items. *)
Lemma closure_terminates gr item_set :
  grammar_ok gr → first_set_ok gr →
  Forall (λ x : LItem, valid_item gr x.1) item_set →
  ∃ s, closure gr item_set = Ok s.
Proof.
  intros Hgr Hfirst Hvalid. unfold closure.
  apply closure_loop_terminates with (item_set := item_set); [done|done| | |].
  - intros x Hx%elem_of_list_to_set. split_and!.
    + by eapply Forall_forall in Hvalid.
    + unfold lookahead_universe. apply elem_of_union_r, elem_of_list_to_set.
      by apply list_elem_of_fmap_2.
    + unfold item_universe. set_solver.
  - set_solver.
  - left. unfold closure_fuel, item_universe.
    pose proof (size_union_alt (list_to_set item_set : gset LItem)
      (list_to_set (expansion 0 (length (productions gr))
                      (elements (lookahead_universe gr item_set))))) as Hsz.
    pose proof (subseteq_size
      (list_to_set (expansion 0 (length (productions gr))
          (elements (lookahead_universe gr item_set))) ∖ list_to_set item_set)
      (list_to_set (expansion 0 (length (productions gr))
          (elements (lookahead_universe gr item_set))) : gset LItem)) as Hsz2.
    pose proof (size_list_to_set_le
      (expansion 0 (length (productions gr))
         (elements (lookahead_universe gr item_set)))) as Hsz3.
    rewrite length_expansion in Hsz3.
    assert (length (elements (lookahead_universe gr item_set))
            = size (lookahead_universe gr item_set)) as Hlen by done.
    rewrite Hlen in Hsz3. rewrite Hsz.
    specialize (Hsz2 ltac:(set_solver)). lia.
Qed.

(** ** The modelled FIRST sets satisfy the contract *)

Module ModelFacts.

Lemma first_of_seq_sound ts ft seq t :
  table_sound ts ft → Some t ∈ Model.first_of_seq ft seq → t ∈ ts ∨ T t ∈ seq.
Proof.
  intros Hft. induction seq as [|[t'|n] seq IH]; simpl.
  - set_solver.
  - intros [= ->]%elem_of_singleton. right. left.
  - intros [Ht|Ht]%elem_of_union.
    + left. destruct (ft !! n) as [f|] eqn:Hn; simpl in Ht; [|set_solver].
      eapply Hft; [done|]. set_solver.
    + case_decide; [|set_solver]. destruct (IH Ht) as [?|?]; [by left|].
      right. by right.
Qed.

Lemma first_round_sound ts prods ft :
  (∀ p t, p ∈ prods → T t ∈ p.2 → t ∈ ts) →
  table_sound ts ft → table_sound ts (Model.first_round prods ft).
Proof.
  unfold Model.first_round. revert ft.
  induction prods as [|p prods IH]; intros ft Hts Hft; simpl; [done|].
  apply IH; [intros ????; eapply Hts; [by right|done]|].
  intros n f t. destruct (decide (n = p.1)) as [->|Hne].
  - rewrite lookup_insert_eq. intros [= <-] [Ht|Ht]%elem_of_union.
    + destruct (ft !! p.1) as [f|] eqn:Hn; simpl in Ht; [|set_solver].
      by eapply Hft.
    + destruct (first_of_seq_sound ts ft _ _ Hft Ht) as [?|?]; [done|].
      eapply Hts; [left|done].
  - rewrite lookup_insert_ne by done. apply Hft.
Qed.

Lemma first_table_sound ts prods :
  (∀ p t, p ∈ prods → T t ∈ p.2 → t ∈ ts) → table_sound ts (Model.first_table prods).
Proof.
  intros Hts. unfold Model.first_table.
  induction (S (length prods * S (length (mjoin prods.*2)))) as [|k IH]; simpl.
  - intros n f t. by rewrite lookup_empty.
  - by apply first_round_sound.
Qed.

Lemma first_of_seq_snoc ft seq x :
  Model.first_of_seq ft (seq ++ [T x]) =
    (Model.first_of_seq ft seq ∖ {[None]})
      ∪ (if decide (None ∈ Model.first_of_seq ft seq) then {[Some x]} else ∅).
Proof.
  induction seq as [|[t|n] seq IH]; simpl.
  - rewrite decide_True by set_solver. set_solver.
  - rewrite decide_False by set_solver. set_solver.
  - rewrite IH. clear IH. apply set_eq. intros o.
    repeat case_decide; set_solver.
Qed.

(** A well-formed grammar whose [first_set] is the modelled one meets the
    contract. *)
Lemma model_first_set_ok gr :
  grammar_ok gr → first_set gr = Model.first_set (productions gr) →
  first_set_ok gr.
Proof.
  intros Hgr Heq. split; rewrite Heq.
  - intros seq t Ht.
    assert (∀ p t', p ∈ productions gr → T t' ∈ p.2 →
              t' ∈ (list_to_set (terminals gr) : gset string)) as Hts.
    { intros p t' Hp Ht'. apply list_elem_of_lookup in Hp as [i Hi].
      apply list_elem_of_lookup in Ht' as [j Hj].
      pose proof (symbol_ok_at _ _ _ _ _ Hgr Hi Hj) as Hok.
      by apply elem_of_list_to_set. }
    destruct (first_of_seq_sound _ _ _ _ (first_table_sound _ _ Hts) Ht) as [H|H].
    + left. by apply elem_of_list_to_set in H.
    + by right.
  - intros seq x. apply first_of_seq_snoc.
Qed.

End ModelFacts.

(** ** Sample grammars are well-formed *)

Lemma sample_grammar_ok prods ts nts offs :
  grammar_ok (Samples.mk_grammar prods ts nts offs) →
  first_set_ok (Samples.mk_grammar prods ts nts offs).
Proof. intros Hgr. by apply ModelFacts.model_first_set_ok. Qed.

Lemma g_single_ok : grammar_ok Samples.g_single.
Proof. apply (bool_decide_unpack _). vm_cast_no_check I. Qed.

Lemma g_single_first_ok : first_set_ok Samples.g_single.
Proof. apply sample_grammar_ok, g_single_ok. Qed.

(** ** Claims about closure *)

Lemma expanded_closed gr s :
  grammar_ok gr → (∀ x, x ∈ s → expanded gr s x) → closed_under_expansion gr s.
Proof.
  intros Hgr Hexp prod_index dot lookahead p nt nt_offset idx term
    Hin Hp Hdot Hoff Hidx Hterm.
  pose proof (symbol_ok_at _ _ _ _ _ Hgr Hp Hdot) as [Hnt _].
  destruct (item_expansion_intro gr prod_index dot lookahead p nt nt_offset
              idx term) as (l & Hl & Hy); [done..|].
  destruct (Hexp _ Hin) as (l' & Hl' & Hsub). apply Hsub. congruence.
Qed.

Lemma derives_in_closed gr (i s : gset LItem) y :
  i ⊆ s → closed_under_expansion gr s → derives gr i y → y ∈ s.
Proof.
  intros Hi Hclosed. induction 1 as [x Hx|x l y _ IH Hl Hy]; [by apply Hi|].
  destruct x as [[prod_index dot] lookahead].
  destruct (item_expansion_elem _ _ _ _ _ _ Hl Hy)
    as (p & nt & off & idx & term & Hp & Hdot & _ & Hoff & Hidx & Hterm & ->).
  by eapply Hclosed.
Qed.

(** C3.  For a well-formed grammar and a set of items of the data model,
    [closure] terminates and returns the least set that contains its input
    and is closed under the expansion rule. *)
Theorem closure_least_closed_set gr (item_set : list LItem) :
  grammar_ok gr → first_set_ok gr →
  Forall (λ x : LItem, valid_item gr x.1) item_set →
  ∃ s, closure gr item_set = Ok s
       ∧ list_to_set item_set ⊆ s
       ∧ closed_under_expansion gr s
       ∧ ∀ s' : gset LItem,
           list_to_set item_set ⊆ s' → closed_under_expansion gr s' → s ⊆ s'.
Proof.
  intros Hgr Hfirst Hvalid.
  destruct (closure_terminates gr item_set) as [s Hs]; [done..|].
  destruct (closure_Ok _ _ _ Hs) as (Hsub & Hexp & Hder).
  exists s. split_and!; [done|done|by apply expanded_closed|].
  intros s' Hsub' Hclosed' y Hy. eapply derives_in_closed; [done..|by apply Hder].
Qed.

Lemma closure_least_closed_set_witness :
  ∃ s, closure Samples.g_single [((0, 0), "$")] = Ok s
       ∧ list_to_set [((0, 0), "$")] ⊆ s
       ∧ closed_under_expansion Samples.g_single s
       ∧ ∀ s' : gset LItem,
           list_to_set [((0, 0), "$")] ⊆ s' →
           closed_under_expansion Samples.g_single s' → s ⊆ s'.
Proof.
  apply (closure_least_closed_set Samples.g_single [((0, 0), "$")]
           g_single_ok g_single_first_ok).
  repeat constructor.
Defined.

(** C10.  [closure] is extensive and idempotent, and the result of [goto]
    is closed: closing it again returns it unchanged. *)
Theorem closure_extensive_idempotent gr (item_set : list LItem)
    (s i g : gset LItem) (inp : Symbol) :
  closure gr item_set = Ok s → goto gr i inp = Ok g →
  list_to_set item_set ⊆ s
  ∧ closure gr (elements s) = Ok s
  ∧ closure gr (elements g) = Ok g.
Proof.
  intros Hs Hg. destruct (closure_Ok _ _ _ Hs) as (Hsub & Hexp & _).
  split_and!; [done|by apply closure_of_closed|].
  unfold goto in Hg. inv_ok.
  destruct (closure_Ok _ _ _ Hg) as (_ & Hexp' & _). by apply closure_of_closed.
Qed.

Lemma closure_extensive_idempotent_witness :
  let s : gset LItem := list_to_set [((0, 0), "$"); ((1, 0), "$")] in
  let g : gset LItem := {[((0, 1), "$")]} in
  list_to_set [((0, 0), "$")] ⊆ s
  ∧ closure Samples.g_single (elements s) = Ok s
  ∧ closure Samples.g_single (elements g) = Ok g.
Proof.
  intros s g.
  apply (closure_extensive_idempotent Samples.g_single [((0, 0), "$")]
           s s g (N Samples.S)).
  - vm_cast_no_check (eq_refl (Ok s)).
  - vm_cast_no_check (eq_refl (Ok g)).
Defined.

(** ** The lookahead table *)

Lemma cell_Ok (table : Table) (s : nat) (it : Item) (e : LrZeroItemTableEntry) :
  cell table s it = Ok e ↔ table_lookup table s it = Some e.
Proof.
  unfold cell, table_lookup, index, getitem.
  destruct (table !! s) as [row|]; simpl; [|naive_solver].
  destruct (row !! it); naive_solver.
Qed.

Lemma update_cell_Ok (table table' : Table) (s : nat) (it : Item)
    (f : LrZeroItemTableEntry → LrZeroItemTableEntry) :
  update_cell table s it f = Ok table' →
  ∃ e, table_lookup table s it = Some e ∧
       length table' = length table ∧
       ∀ s' it', table_lookup table' s' it' =
                 if decide (s' = s ∧ it' = it) then Some (f e)
                 else table_lookup table s' it'.
Proof.
  unfold update_cell. intros H. inv_ok. rename a into row, a0 into e.
  exists e. split_and!.
  - unfold table_lookup. by rewrite Ha; simpl.
  - by rewrite length_insert.
  - intros s' it'. unfold table_lookup.
    destruct (decide (s' = s)) as [->|Hs].
    + rewrite list_lookup_insert_eq by (by eapply lookup_lt_Some). simpl.
      rewrite Ha. simpl. destruct (decide (it' = it)) as [->|Hit].
      * rewrite lookup_insert_eq. by rewrite decide_True.
      * rewrite lookup_insert_ne by done. rewrite decide_False; naive_solver.
    + rewrite list_lookup_insert_ne by done. rewrite decide_False; naive_solver.
Qed.

Global Instance same_shape_preorder : PreOrder same_shape.
Proof.
  split.
  - by intros t.
  - intros t1 t2 t3 [Hl1 Hk1] [Hl2 Hk2]. split; [congruence|].
    intros s it. by rewrite Hk1, Hk2.
Qed.

Lemma update_cell_same_shape (table table' : Table) (s : nat) (it : Item)
    (f : LrZeroItemTableEntry → LrZeroItemTableEntry) :
  update_cell table s it f = Ok table' → same_shape table table'.
Proof.
  intros (e & He & Hlen & Hlook)%update_cell_Ok. split; [done|].
  intros s' it'. rewrite Hlook. case_decide as Heq; [|done].
  destruct Heq as [-> ->]. rewrite He. split; eauto.
Qed.

(** Steps 2 and 3 only mutate entries of the table. *)
Lemma spread_item_same_shape gr (i_state_id : nat) (i_item : Item)
    (sym : Symbol) (j_state_id : nat) (table table' : Table) (x : LItem) :
  spread_item gr i_state_id i_item sym j_state_id table x = Ok table' →
  same_shape table table'.
Proof.
  destruct x as [[prod_index dot] next_symbol]. unfold spread_item.
  intros H. inv_ok. case_decide; inv_ok; [done|].
  case_decide; inv_ok; [done|].
  case_decide; by eapply update_cell_same_shape.
Qed.

Lemma for_each_same_shape {A} (f : Table → A → result Table)
    (l : list A) (t t' : Table) :
  (∀ t x t', f t x = Ok t' → same_shape t t') →
  for_each f t l = Ok t' → same_shape t t'.
Proof.
  intros Hf Hrun.
  eapply (for_each_invariant f (λ t', same_shape t t')); [|done|done].
  intros t1 x t2 _ Ht1 Hstep. etrans; [done|]. by eapply Hf.
Qed.

Lemma spread_state_same_shape gr (dfa : Automaton) (kstates : list (gset Item))
    (table table' : Table) (i : nat) :
  spread_state gr dfa kstates table i = Ok table' → same_shape table table'.
Proof.
  unfold spread_state. intros H. inv_ok. revert H. apply for_each_same_shape.
  intros t i_item t' H. unfold spread_kernel_item in H. inv_ok.
  revert H. apply for_each_same_shape.
  intros t1 sym t1' H. unfold spread_symbol in H. inv_ok.
  revert H. apply for_each_same_shape.
  intros ???. apply spread_item_same_shape.
Qed.

(** Step 4 only mutates entries of the table. *)
Lemma propagate_pass_same_shape (table table' : Table) (repeat : bool) :
  propagate_pass table = Ok (table', repeat) → same_shape table table'.
Proof.
  unfold propagate_pass. intros H.
  assert (∀ {A} (f : Table * bool → A → result (Table * bool)) l st st',
            (∀ st x st', f st x = Ok st' → same_shape st.1 st'.1) →
            for_each f st l = Ok st' → same_shape st.1 st'.1) as Hloop.
  { intros A f l st st' Hf Hrun.
    eapply (for_each_invariant f (λ st', same_shape st.1 st'.1)); [|done|done].
    intros st1 x st2 _ Hst1 Hstep. etrans; [done|]. by eapply Hf. }
  apply Hloop in H; [done|].
  intros st i st' Hst. unfold propagate_state in Hst. inv_ok.
  revert Hst. apply Hloop. intros st1 kv st1' Hst. unfold propagate_item in Hst.
  revert Hst. apply Hloop. intros st2 [j_state_id j_item] st2' Hst.
  unfold propagate_edge in Hst. inv_ok. simpl.
  by eapply update_cell_same_shape.
Qed.

Lemma propagate_same_shape (fuel : nat) (table table' : Table) :
  propagate fuel table = Ok table' → same_shape table table'.
Proof.
  revert table. induction fuel as [|fuel IH]; intros table H; simpl in H; [done|].
  inv_ok. destruct a as [t1 repeat].
  apply propagate_pass_same_shape in Ha. destruct repeat.
  - etrans; [done|]. by apply IH.
  - by inv_ok.
Qed.

Lemma map_result_length {A B} (f : A → result B) (l : list A) (l' : list B) :
  map_result f l = Ok l' → length l' = length l.
Proof.
  revert l'. induction l as [|x l IH]; intros l' H; simpl in H; inv_ok; [done|].
  simpl. f_equal. by apply IH.
Qed.

Lemma map_result_lookup {A B} (f : A → result B) (l : list A) (l' : list B) i y :
  map_result f l = Ok l' → l' !! i = Some y →
  ∃ x, l !! i = Some x ∧ f x = Ok y.
Proof.
  revert l' i. induction l as [|x l IH]; intros l' i H Hy; simpl in H; inv_ok;
    [done|].
  destruct i as [|i]; simpl in *; [inv_ok; simplify_eq; eauto|]. by eapply IH.
Qed.

(** ** Further properties of closure *)


Lemma g_single_closure :
  closure Samples.g_single [((0, 0), "$")]
  = Ok (list_to_set [((0, 0), "$"); ((1, 0), "$")]).
Proof.
  vm_cast_no_check
    (eq_refl (Ok (list_to_set [((0, 0), "$"); ((1, 0), "$")] : gset LItem))).
Qed.



(** X2.  [closure] is monotone in the set of its input items: the order and
    the repetitions of the items in [item_set] do not matter, and a larger
    input gives a larger result. *)
Theorem closure_monotone gr (i j : list LItem) (s s' : gset LItem) :
  closure gr i = Ok s → closure gr j = Ok s' →
  (list_to_set i : gset LItem) ⊆ list_to_set j → s ⊆ s'.
Proof.
  intros Hs Hs' Hij y Hy.
  apply (closure_elem _ _ _ y Hs') . apply (closure_elem _ _ _ y Hs) in Hy.
  eapply derives_mono; [|done]. intros x Hx. constructor. by apply Hij.
Qed.

Lemma closure_monotone_witness :
  (list_to_set [((0, 0), "$"); ((1, 0), "$")] : gset LItem)
  ⊆ list_to_set [((0, 0), "$"); ((1, 0), "$")].
Proof.
  apply (closure_monotone Samples.g_single
           [((0, 0), "$")] [((0, 0), "$"); ((0, 0), "$")]).
  - exact g_single_closure.
  - vm_cast_no_check
      (eq_refl (Ok (list_to_set [((0, 0), "$"); ((1, 0), "$")] : gset LItem))).
  - apply (bool_decide_unpack _). vm_cast_no_check I.
Defined.

Lemma derives_union gr (i j : gset LItem) y :
  derives gr (i ∪ j) y → derives gr i y ∨ derives gr j y.
Proof.
  induction 1 as [x [Hx|Hx]%elem_of_union|x l y _ [IH|IH] Hl Hy].
  - left. by constructor.
  - right. by constructor.
  - left. by eapply derives_step.
  - right. by eapply derives_step.
Qed.

(** X3.  [closure] distributes over union: closing two item sets together
    gives the union of their closures. *)
Theorem closure_union gr (i j : list LItem) (s si sj : gset LItem) :
  closure gr (i ++ j) = Ok s → closure gr i = Ok si → closure gr j = Ok sj →
  s = si ∪ sj.
Proof.
  intros Hs Hsi Hsj. apply set_eq. intros y. rewrite elem_of_union.
  rewrite (closure_elem _ _ _ y Hs), (closure_elem _ _ _ y Hsi),
    (closure_elem _ _ _ y Hsj), list_to_set_app_L.
  split; [apply derives_union|].
  intros [Hy|Hy]; (eapply derives_mono; [|exact Hy]);
    intros x Hx; constructor; set_solver.
Qed.

Lemma closure_union_witness :
  (list_to_set [((0, 0), "$"); ((1, 0), "$"); ((1, 1), "a")] : gset LItem)
  = list_to_set [((0, 0), "$"); ((1, 0), "$")] ∪ {[((1, 1), "a")]}.
Proof.
  apply (closure_union Samples.g_single [((0, 0), "$")] [((1, 1), "a")]).
  - vm_cast_no_check
      (eq_refl (Ok (list_to_set [((0, 0), "$"); ((1, 0), "$"); ((1, 1), "a")]
                    : gset LItem))).
  - exact g_single_closure.
  - vm_cast_no_check (eq_refl (Ok ({[((1, 1), "a")]} : gset LItem))).
Defined.

(** ** Properties of goto *)

Lemma goto_step_Ok gr (inp : Symbol) (r r' : gset LItem) (x : LItem) :
  goto_step gr inp r x = Ok r' →
  r' = if decide (symbol_at gr x.1 = Some inp)
       then {[((x.1.1, x.1.2 + 1), x.2)]} ∪ r else r.
Proof.
  destruct x as [[prod_id dot] lookahead]. unfold goto_step, symbol_at.
  intros H. simpl. inv_ok. rewrite Ha. simpl. case_decide as Hdot.
  - inv_ok. rewrite decide_False; [done|].
    rewrite (proj2 (lookup_ge_None _ _)) by lia. done.
  - inv_ok. rewrite Ha0. destruct (decide (a0 = inp)) as [->|Hne].
    + rewrite decide_False in H by naive_solver. inv_ok.
      by rewrite decide_True.
    + rewrite decide_True in H by done. inv_ok.
      rewrite decide_False; [done|]. naive_solver.
Qed.

Lemma goto_kernel gr (inp : Symbol) (r0 r : gset LItem) (l : list LItem) :
  for_each (goto_step gr inp) r0 l = Ok r →
  ∀ y, y ∈ r ↔
       y ∈ r0 ∨ ∃ x, x ∈ l ∧ symbol_at gr x.1 = Some inp
                     ∧ y = ((x.1.1, x.1.2 + 1), x.2).
Proof.
  revert r0. induction l as [|x l IH]; intros r0 Hrun y; simpl in Hrun.
  - inv_ok. split; [by left|]. intros [?|(x & Hx & _)]; [done|].
    by apply elem_of_nil in Hx.
  - inv_ok. apply goto_step_Ok in Ha. rewrite (IH _ Hrun y). subst a.
    case_decide as Hsym.
    + rewrite elem_of_union, elem_of_singleton. split.
      * intros [[->|?]|(x' & Hx' & ? & ?)]; [right|by left|right].
        -- exists x. split; [left|done].
        -- exists x'. split; [by right|done].
      * intros [?|(x' & [->|Hx']%elem_of_cons & ? & ->)];
          [left; by right|left; by left|right].
        by exists x'.
    + split.
      * intros [?|(x' & Hx' & ? & ?)]; [by left|right].
        exists x'. split; [by right|done].
      * intros [?|(x' & [->|Hx']%elem_of_cons & ? & ->)];
          [by left|done|right].
        by exists x'.
Qed.

Lemma closure_nil gr : closure gr [] = Ok ∅.
Proof. done. Qed.

Lemma g_single_goto :
  goto Samples.g_single (list_to_set [((0, 0), "$"); ((1, 0), "$")])
       (N Samples.S)
  = Ok {[((0, 1), "$")]}.
Proof. vm_cast_no_check (eq_refl (Ok ({[((0, 1), "$")]} : gset LItem))). Qed.

(** X4.  When [goto] returns, its result is empty exactly when no item of
    the set has [inp] right after the dot. *)
Theorem goto_empty_iff gr (i g : gset LItem) (inp : Symbol) :
  goto gr i inp = Ok g →
  (g = ∅ ↔ ∀ x, x ∈ i → symbol_at gr x.1 ≠ Some inp).
Proof.
  unfold goto. intros H. inv_ok. rename a into k.
  pose proof (goto_kernel _ _ _ _ _ Ha) as Hk. split.
  - intros -> x Hx Hsym.
    destruct (closure_Ok _ _ _ H) as (Hsub & _ & _).
    assert (((x.1.1, x.1.2 + 1), x.2) ∈ k) as Hin.
    { apply Hk. right. exists x. by rewrite elem_of_elements. }
    rewrite list_to_set_elements_L in Hsub. set_solver.
  - intros Hno. assert (k = ∅) as ->.
    { apply set_eq. intros y. rewrite Hk. split; [|set_solver].
      intros [?|(x & Hx%elem_of_elements & Hsym & _)]; [set_solver|].
      by destruct (Hno x Hx). }
    rewrite elements_empty, closure_nil in H. by inv_ok.
Qed.

Lemma goto_empty_iff_witness :
  ({[((0, 1), "$")]} : gset LItem) = ∅ ↔
  ∀ x : LItem, x ∈ (list_to_set [((0, 0), "$"); ((1, 0), "$")] : gset LItem) →
      symbol_at Samples.g_single x.1 ≠ Some (N Samples.S).
Proof.
  apply (goto_empty_iff Samples.g_single
           (list_to_set [((0, 0), "$"); ((1, 0), "$")]) {[((0, 1), "$")]}
           (N Samples.S)).
  exact g_single_goto.
Defined.

(** X5.  The result of [goto] holds every item of the set that expects
    [inp], with the dot moved one position to the right and the same
    lookahead; everything else in it was added by [closure] and has the dot
    at the left end. *)
Theorem goto_items gr (i g : gset LItem) (inp : Symbol) :
  goto gr i inp = Ok g →
  (∀ x, x ∈ i → symbol_at gr x.1 = Some inp →
        ((x.1.1, x.1.2 + 1), x.2) ∈ g)
  ∧ (∀ y, y ∈ g →
          (∃ x, x ∈ i ∧ symbol_at gr x.1 = Some inp
                ∧ y = ((x.1.1, x.1.2 + 1), x.2))
          ∨ y.1.2 = 0).
Proof.
  unfold goto. intros H. inv_ok. rename a into k.
  pose proof (goto_kernel _ _ _ _ _ Ha) as Hk.
  destruct (closure_Ok _ _ _ H) as (Hsub & _ & Hder).
  rewrite list_to_set_elements_L in Hsub, Hder. split.
  - intros x Hx Hsym. apply Hsub, Hk. right. exists x.
    by rewrite elem_of_elements.
  - intros y Hy. destruct (Hder y Hy) as [y' Hy'|x l y' _ Hl Hy'].
    + apply Hk in Hy' as [?|(x & Hx%elem_of_elements & Hsym & ->)];
        [set_solver|]. left. by exists x.
    + right. destruct x as [[prod_index dot] lookahead].
      destruct (item_expansion_elem _ _ _ _ _ _ Hl Hy')
        as (? & ? & ? & ? & ? & _ & _ & _ & _ & _ & _ & ->). done.
Qed.

Lemma goto_items_witness :
  (∀ x : LItem, x ∈ (list_to_set [((0, 0), "$"); ((1, 0), "$")] : gset LItem) →
      symbol_at Samples.g_single x.1 = Some (N Samples.S) →
      ((x.1.1, x.1.2 + 1), x.2) ∈ ({[((0, 1), "$")]} : gset LItem))
  ∧ (∀ y : LItem, y ∈ ({[((0, 1), "$")]} : gset LItem) →
       (∃ x : LItem,
           x ∈ (list_to_set [((0, 0), "$"); ((1, 0), "$")] : gset LItem)
           ∧ symbol_at Samples.g_single x.1 = Some (N Samples.S)
           ∧ y = ((x.1.1, x.1.2 + 1), x.2))
       ∨ y.1.2 = 0).
Proof.
  apply (goto_items Samples.g_single
           (list_to_set [((0, 0), "$"); ((1, 0), "$")]) {[((0, 1), "$")]}
           (N Samples.S)).
  exact g_single_goto.
Defined.

(** ** State identification by core *)

Lemma id_from_core_snoc (l : list (gset Item)) (x : gset Item) :
  id_from_core (l ++ [x]) = <[x := length l]> (id_from_core l).
Proof.
  unfold id_from_core. rewrite length_app. simpl.
  replace (length l + 1) with (S (length l)) by lia.
  rewrite seq_S. simpl.
  rewrite zip_with_app by (by rewrite length_seq).
  by rewrite foldl_app.
Qed.

(** X6.  The dictionary [id_from_core] maps a core to the last state id
    whose item set has that core: a later state with the same core replaces
    an earlier one, and a core of no state is absent. *)
Theorem id_from_core_lookup (ccol_core : list (gset Item)) (c : gset Item) (i : nat) :
  id_from_core ccol_core !! c = Some i ↔
  ccol_core !! i = Some c ∧ ∀ j, i < j → ccol_core !! j ≠ Some c.
Proof.
  revert i. induction ccol_core as [|x l IH] using rev_ind; intros i.
  - unfold id_from_core. simpl. rewrite lookup_empty. naive_solver.
  - rewrite id_from_core_snoc. destruct (decide (x = c)) as [->|Hne].
    + rewrite lookup_insert_eq. split.
      * intros [= <-]. split; [by rewrite list_lookup_middle|].
        intros j Hj. rewrite lookup_ge_None_2; [done|].
        rewrite length_app. simpl. lia.
      * intros [Hi Hlast]. f_equal.
        apply lookup_lt_Some in Hi as Hlt. rewrite length_app in Hlt.
        simpl in Hlt. destruct (decide (i = length l)) as [|Hil]; [done|].
        destruct (Hlast (length l)); [lia|]. by rewrite list_lookup_middle.
    + rewrite lookup_insert_ne by done. rewrite IH. split.
      * intros [Hi Hlast]. split; [by apply lookup_app_l_Some|].
        intros j Hj. destruct (decide (j < length l)) as [Hjl|Hjl].
        -- rewrite lookup_app_l by done. by apply Hlast.
        -- destruct (decide (j = length l)) as [->|].
           ++ rewrite list_lookup_middle by done. naive_solver.
           ++ rewrite lookup_ge_None_2; [done|]. rewrite length_app. simpl. lia.
      * intros [Hi Hlast].
        assert (i < length l) as Hil.
        { apply lookup_lt_Some in Hi as Hlt. rewrite length_app in Hlt.
          simpl in Hlt. destruct (decide (i = length l)) as [->|]; [|lia].
          rewrite list_lookup_middle in Hi by done. naive_solver. }
        rewrite lookup_app_l in Hi by done. split; [done|].
        intros j Hj Hjc. apply (Hlast j Hj). by apply lookup_app_l_Some.
Qed.

(** X7.  [id_from_lr_one_state] returns the id of a state of the collection
    with the same core as the given item set, and raises [KeyError] exactly
    when no state of the collection has that core. *)
Theorem id_from_lr_one_state_result (ccol : list (gset LItem)) (itemset : gset LItem) :
  match id_from_lr_one_state
          (id_from_core (drop_lalr_one_itemset_lookaheads <$> ccol)) itemset with
  | Ok i => ∃ s, ccol !! i = Some s
                 ∧ drop_lalr_one_itemset_lookaheads s
                   = drop_lalr_one_itemset_lookaheads itemset
  | Raise e => e = KeyError
               ∧ ∀ i s, ccol !! i = Some s →
                   drop_lalr_one_itemset_lookaheads s
                   ≠ drop_lalr_one_itemset_lookaheads itemset
  | Timeout => False
  end.
Proof.
  unfold id_from_lr_one_state, getitem.
  destruct (id_from_core _ !! _) as [i|] eqn:Hi.
  - apply id_from_core_lookup in Hi as [Hi _].
    rewrite list_lookup_fmap in Hi.
    destruct (ccol !! i) as [s|]; simpl in Hi; [|done].
    exists s. split; [done|]. congruence.
  - split; [done|]. intros i s Hs Hcore.
    assert (∃ j, (drop_lalr_one_itemset_lookaheads <$> ccol) !! j
                 = Some (drop_lalr_one_itemset_lookaheads itemset)
                 ∧ ∀ k, j < k → (drop_lalr_one_itemset_lookaheads <$> ccol) !! k
                                ≠ Some (drop_lalr_one_itemset_lookaheads itemset))
      as (j & Hj).
    { assert ((drop_lalr_one_itemset_lookaheads <$> ccol) !! i
              = Some (drop_lalr_one_itemset_lookaheads itemset)) as Hi'.
      { rewrite list_lookup_fmap, Hs. simpl. by rewrite Hcore. }
      clear Hi Hs Hcore. revert i Hi'.
      generalize (drop_lalr_one_itemset_lookaheads <$> ccol).
      generalize (drop_lalr_one_itemset_lookaheads itemset).
      intros c l. induction l as [|x l IH] using rev_ind; intros i Hi'; [done|].
      destruct (decide (x = c)) as [->|Hne].
      - exists (length l). split; [by rewrite list_lookup_middle|].
        intros k Hk. rewrite lookup_ge_None_2; [done|].
        rewrite length_app. simpl. lia.
      - assert (i < length l) as Hil.
        { apply lookup_lt_Some in Hi' as Hlt. rewrite length_app in Hlt.
          simpl in Hlt. destruct (decide (i = length l)) as [->|]; [|lia].
          rewrite list_lookup_middle in Hi' by done. naive_solver. }
        rewrite lookup_app_l in Hi' by done.
        destruct (IH i Hi') as (j & Hj & Hlast). exists j.
        split; [by apply lookup_app_l_Some|].
        intros k Hk. destruct (decide (k < length l)) as [Hkl|Hkl].
        + rewrite lookup_app_l by done. by apply Hlast.
        + destruct (decide (k = length l)) as [->|].
          * rewrite list_lookup_middle by done. naive_solver.
          * rewrite lookup_ge_None_2; [done|]. rewrite length_app. simpl. lia. }
    apply id_from_core_lookup in Hj. congruence.
Qed.

(** ** The canonical collection *)

Lemma elem_of_kernel_item_set (row : gmap Item LrZeroItemTableEntry)
    (it : Item) (la : string) :
  (it, la) ∈ kernel_item_set row ↔
  ∃ e, row !! it = Some e ∧ la ∈ lookaheads e.
Proof.
  unfold kernel_item_set. rewrite elem_of_list_to_set, list_elem_of_bind. split.
  - intros ([it' e] & Hin & Hkv%elem_of_map_to_list). simpl in Hin.
    apply list_elem_of_fmap in Hin as (la' & [= -> ->] & Hla%elem_of_elements).
    by exists e.
  - intros (e & He & Hla). exists (it, e). split.
    + simpl. apply list_elem_of_fmap. exists la. by rewrite elem_of_elements.
    + by apply elem_of_map_to_list.
Qed.

Lemma initial_table_shape (lr : LrZero) gr (table : Table) :
  initial_table lr gr = Ok table →
  length table = length (states (get_automaton lr gr)) ∧
  ∀ s it, is_Some (table_lookup table s it) →
    ∃ st, states (get_automaton lr gr) !! s = Some st ∧ it ∈ kernels lr st.
Proof.
  unfold initial_table. intros H. inv_ok. rename a into t1.
  apply update_cell_same_shape in Ha.
  assert (same_shape t1 table) as Hsh.
  { revert H. apply for_each_same_shape. intros ???. apply spread_state_same_shape. }
  destruct (transitivity Ha Hsh) as [Hlen Hkeys]. split.
  - rewrite <-Hlen. by rewrite !length_fmap.
  - intros s it His. apply Hkeys in His as [e He].
    unfold table_lookup in He. rewrite !list_lookup_fmap in He.
    destruct (states (get_automaton lr gr) !! s) as [st|]; simpl in He; [|done].
    exists st. split; [done|].
    apply lookup_gset_to_gmap_Some in He. tauto.
Qed.

Lemma derives_init_or_left gr (i : gset LItem) (y : LItem) :
  derives gr i y → y ∈ i ∨ y.1.2 = 0.
Proof.
  intros [x Hx|x l y' _ Hl Hy]; [by left|right].
  destruct x as [[prod_index dot] lookahead].
  destruct (item_expansion_elem _ _ _ _ _ _ Hl Hy)
    as (? & ? & ? & ? & ? & _ & _ & _ & _ & _ & _ & ->). done.
Qed.

(** X8.  The canonical collection is indexed like the automaton: it has one
    item set per automaton state; in the item set of state [s] every item
    whose dot is not at the left end is a kernel item of automaton state
    [s]; and every item set is closed, [closure] returns it unchanged. *)
Theorem canonical_collection_shape (lr : LrZero) gr (ccol : list (gset LItem)) :
  get_canonical_collection lr gr = Ok ccol →
  length ccol = length (states (get_automaton lr gr))
  ∧ ∀ s cs, ccol !! s = Some cs →
      closure gr (elements cs) = Ok cs
      ∧ ∀ it la, (it, la) ∈ cs → it.2 ≠ 0 →
          ∃ st, states (get_automaton lr gr) !! s = Some st ∧ it ∈ kernels lr st.
Proof.
  unfold get_canonical_collection, propagated_table. intros H. inv_ok.
  rename a0 into t0, a into t1.
  destruct (initial_table_shape _ _ _ Ha0) as [Hlen Hkeys].
  destruct (propagate_same_shape _ _ _ Ha) as [Hlen' Hkeys'].
  split; [rewrite (map_result_length _ _ _ H); congruence|].
  intros s cs Hcs.
  destruct (map_result_lookup _ _ _ _ _ H Hcs) as (row & Hrow & Hclo).
  destruct (closure_Ok _ _ _ Hclo) as (_ & Hexp & Hder). split.
  - by apply closure_of_closed.
  - intros it la Hin Hdot. rewrite list_to_set_elements_L in Hder.
    destruct (derives_init_or_left _ _ _ (Hder _ Hin)) as [Hx|Hx]; [|done].
    apply elem_of_kernel_item_set in Hx as (e & He & _).
    apply Hkeys, (proj2 (Hkeys' s it)). unfold table_lookup.
    rewrite Hrow. simpl. eauto.
Qed.

(** X9.  [get_canonical_collection] raises [IndexError] when the automaton
    has no state, and [KeyError] when the start item [(0, 0)] is not a kernel
    item of state 0: the seeding of the end marker subscripts the table
    without a check. *)
Theorem canonical_collection_seed_errors (lr : LrZero) gr :
  (states (get_automaton lr gr) = [] →
   get_canonical_collection lr gr = Raise IndexError)
  ∧ (∀ st, states (get_automaton lr gr) !! 0 = Some st → (0, 0) ∉ kernels lr st →
     get_canonical_collection lr gr = Raise KeyError).
Proof.
  unfold get_canonical_collection, propagated_table, initial_table. split.
  - intros ->. done.
  - intros st Hst Hnot. unfold update_cell, index.
    rewrite !list_lookup_fmap, Hst. simpl. unfold getitem.
    rewrite lookup_gset_to_gmap, option_guard_False by done. done.
Qed.

Lemma g_single_collection :
  get_canonical_collection (Model.lr_zero 20) Samples.g_single
  = Ok [list_to_set [((0, 0), "$"); ((1, 0), "$")];
        {[((0, 1), "$")]}; {[((1, 1), "$")]}].
Proof.
  vm_cast_no_check
    (eq_refl (Ok [list_to_set [((0, 0), "$"); ((1, 0), "$")];
                  {[((0, 1), "$")]}; {[((1, 1), "$")]} : gset LItem])).
Qed.

Lemma canonical_collection_shape_witness :
  let ccol : list (gset LItem) :=
    [list_to_set [((0, 0), "$"); ((1, 0), "$")];
     {[((0, 1), "$")]}; {[((1, 1), "$")]}] in
  length ccol
  = length (states (get_automaton (Model.lr_zero 20) Samples.g_single))
  ∧ ∀ s cs, ccol !! s = Some cs →
      closure Samples.g_single (elements cs) = Ok cs
      ∧ ∀ it la, (it, la) ∈ cs → it.2 ≠ 0 →
          ∃ st, states (get_automaton (Model.lr_zero 20) Samples.g_single) !! s
                = Some st
                ∧ it ∈ kernels (Model.lr_zero 20) st.
Proof.
  intros ccol.
  apply (canonical_collection_shape (Model.lr_zero 20) Samples.g_single ccol).
  exact g_single_collection.
Defined.

Lemma canonical_collection_seed_errors_witness :
  get_canonical_collection
    (MkLrZero (λ _, MkAutomaton [] ∅) (λ st, st)) Samples.g_single
  = Raise IndexError.
Proof.
  apply (canonical_collection_seed_errors
           (MkLrZero (λ _, MkAutomaton [] ∅) (λ st, st)) Samples.g_single).
  reflexivity.
Defined.

(** ** The propagation loop *)

Lemma for_each_preorder {A S} (R : S → S → Prop) `{!PreOrder R}
    (f : S → A → result S) (l : list A) (s s' : S) :
  (∀ s x s', f s x = Ok s' → R s s') → for_each f s l = Ok s' → R s s'.
Proof.
  intros Hf Hrun.
  eapply (for_each_invariant f (λ s', R s s')); [|done|done].
  intros s1 x s2 _ Hs1 Hstep. etrans; [done|]. by eapply Hf.
Qed.

Global Instance grows_preorder : PreOrder grows.
Proof.
  split.
  - intros t. split_and!; [done| |].
    + intros s it e e' He He'. by simplify_eq.
    + intros s it e' la He' Hla. by exists s, it, e'.
  - intros t1 t2 t3 (Hs1 & Hup1 & Hfrom1) (Hs2 & Hup2 & Hfrom2).
    split_and!; [by etrans| |].
    + intros s it e e'' He He''.
      destruct (proj1 (proj2 Hs1 s it)) as [e' He']; [by eexists|].
      destruct (Hup1 _ _ _ _ He He') as [Hp1 Hl1].
      destruct (Hup2 _ _ _ _ He' He'') as [Hp2 Hl2].
      split; [congruence|set_solver].
    + intros s it e'' la He'' Hla.
      destruct (Hfrom2 _ _ _ _ He'' Hla) as (s0 & it0 & e0 & He0 & Hla0).
      by eapply Hfrom1.
Qed.

Global Instance quiet_preorder : PreOrder quiet.
Proof.
  split; [by intros st ?|].
  intros st1 st2 st3 H12 H23 H3. destruct (H23 H3) as [H2 Ht].
  destruct (H12 H2) as [H1 Ht']. split; [done|congruence].
Qed.

Global Instance fst_preorder {A B} (R : A → A → Prop) `{!PreOrder R} :
  PreOrder (λ st st' : A * B, R st.1 st'.1).
Proof. split; [by intros ?|]. intros ??? H1 H2. by etrans. Qed.

Lemma update_cell_id (t t' : Table) (s : nat) (it : Item)
    (f : LrZeroItemTableEntry → LrZeroItemTableEntry) :
  update_cell t s it f = Ok t' →
  (∀ e, table_lookup t s it = Some e → f e = e) → t' = t.
Proof.
  unfold update_cell. intros H Hf. inv_ok. rename a into row, a0 into e.
  rewrite (Hf e) by (unfold table_lookup; by rewrite Ha).
  rewrite insert_id by done. by apply list_insert_id.
Qed.

Lemma propagate_edge_grows (i : nat) (it : Item) (st st' : Table * bool)
    (tgt : nat * Item) :
  propagate_edge i it st tgt = Ok st' → grows st.1 st'.1.
Proof.
  destruct tgt as [j jit]. unfold propagate_edge. intros H. inv_ok. simpl.
  rename a into i_cell, a0 into j_cell, a1 into t1.
  apply cell_Ok in Ha, Ha0.
  pose proof (update_cell_same_shape _ _ _ _ _ Ha1) as Hshape.
  apply update_cell_Ok in Ha1 as (e & He & _ & Hlook).
  assert (e = j_cell) as -> by congruence.
  split_and!; [done| |].
  - intros s it' e0 e' He0 He'. rewrite Hlook in He'. case_decide as Heq.
    + destruct Heq as [-> ->]. simplify_eq. simpl. split; [done|set_solver].
    + by simplify_eq.
  - intros s it' e' la He' Hla. rewrite Hlook in He'. case_decide as Heq.
    + destruct Heq as [-> ->]. simplify_eq. simpl in Hla.
      apply elem_of_union in Hla as [Hla|Hla].
      * by exists j, jit, j_cell.
      * by exists i, it, i_cell.
    + by exists s, it', e'.
Qed.

Lemma propagate_edge_quiet (i : nat) (it : Item) (st st' : Table * bool)
    (tgt : nat * Item) :
  propagate_edge i it st tgt = Ok st' →
  quiet st st' ∧ (st'.2 = false → edge_saturated st'.1 i it tgt).
Proof.
  destruct tgt as [j jit]. unfold propagate_edge. intros H. inv_ok. simpl.
  rename a into i_cell, a0 into j_cell, a1 into t1, a2 into j_cell'.
  apply cell_Ok in Ha, Ha0, Ha2.
  pose proof Ha1 as Hupd.
  apply update_cell_Ok in Ha1 as (e & He & _ & Hlook).
  assert (e = j_cell) as -> by congruence.
  rewrite Hlook, decide_True in Ha2 by done. injection Ha2 as <-.
  simpl in *.
  assert ((if decide (size (lookaheads j_cell)
                      < size (lookaheads j_cell ∪ lookaheads i_cell))
           then true else st.2) = false →
          st.2 = false ∧ lookaheads i_cell ⊆ lookaheads j_cell) as Hflag.
  { case_decide as Hlt; [done|]. intros ->. split; [done|].
    assert (lookaheads j_cell = lookaheads j_cell ∪ lookaheads i_cell) as Hsub.
    { apply set_subseteq_size_eq; [set_solver|lia]. }
    set_solver. }
  assert ((if decide (size (lookaheads j_cell)
                      < size (lookaheads j_cell ∪ lookaheads i_cell))
           then true else st.2) = false → t1 = st.1) as Hsame.
  { intros [_ Hsub]%Hflag. eapply update_cell_id; [done|].
    intros e He'. assert (e = j_cell) as -> by congruence.
    destruct j_cell as [p l]. unfold add_lookaheads. simpl in *. f_equal.
    set_solver. }
  split.
  - intros Hf. split; [by apply Hflag|by apply Hsame].
  - intros Hf. rewrite (Hsame Hf). destruct (Hflag Hf) as [_ Hsub].
    by exists i_cell, j_cell.
Qed.

Lemma propagate_item_quiet (i : nat) (st st' : Table * bool)
    (kv : Item * LrZeroItemTableEntry) :
  propagate_item i st kv = Ok st' →
  quiet st st' ∧
  (st'.2 = false → ∀ tgt, tgt ∈ propagates_to kv.2 →
     edge_saturated st'.1 i kv.1 tgt).
Proof.
  unfold propagate_item. intros H.
  apply (for_each_effect _ quiet
           (λ tgt st, st.2 = false → edge_saturated st.1 i kv.1 tgt)) in H.
  - destruct H as [Hq He]. split; [done|]. intros Hf tgt Htgt.
    apply He; [by apply elem_of_elements|done].
  - intros s x s' _. apply propagate_edge_quiet.
  - intros x s s' He Hq Hf. destruct (Hq Hf) as [Hf' ->]. by apply He.
Qed.

Lemma propagate_state_quiet (i : nat) (st st' : Table * bool) :
  propagate_state st i = Ok st' →
  quiet st st' ∧
  (st'.2 = false → ∀ it e tgt, table_lookup st'.1 i it = Some e →
     tgt ∈ propagates_to e → edge_saturated st'.1 i it tgt).
Proof.
  unfold propagate_state. intros H. inv_ok. rename a into row.
  apply (for_each_effect _ quiet
           (λ (kv : Item * LrZeroItemTableEntry) st,
              st.2 = false → ∀ tgt, tgt ∈ propagates_to kv.2 →
                edge_saturated st.1 i kv.1 tgt)) in H.
  - destruct H as [Hq He]. split; [done|]. intros Hf it e tgt Hlook Htgt.
    destruct (Hq Hf) as [_ Heq]. rewrite Heq in Hlook.
    unfold table_lookup in Hlook. rewrite Ha in Hlook. simpl in Hlook.
    apply (He (it, e)); [by apply elem_of_map_to_list|done|done].
  - intros s x s' _. apply propagate_item_quiet.
  - intros x s s' He Hq Hf. destruct (Hq Hf) as [Hf' ->]. by apply He.
Qed.

(** A pass that reports no change has left the table as it was, with all
    its edges saturated. *)
Lemma propagate_pass_quiet (t t' : Table) :
  propagate_pass t = Ok (t', false) → t' = t ∧ saturated t.
Proof.
  unfold propagate_pass. intros H.
  apply (for_each_effect _ quiet
           (λ i st, st.2 = false → ∀ it e tgt, table_lookup st.1 i it = Some e →
              tgt ∈ propagates_to e → edge_saturated st.1 i it tgt)) in H.
  - destruct H as [Hq He]. destruct (Hq eq_refl) as [_ Heq]. simpl in *.
    split; [done|]. subst t'. intros s it e tgt Hlook Htgt.
    assert (s ∈ seq 0 (length t)) as Hin.
    { apply elem_of_seq. split; [lia|]. simpl.
      unfold table_lookup in Hlook.
      destruct (t !! s) eqn:Hs; [|done]. by apply lookup_lt_Some in Hs. }
    exact (He s Hin eq_refl it e tgt Hlook Htgt).
  - intros s x s' _. apply propagate_state_quiet.
  - intros x s s' He Hq Hf. destruct (Hq Hf) as [Hf' ->]. by apply He.
Qed.

Lemma propagate_pass_grows (t t' : Table) (repeat : bool) :
  propagate_pass t = Ok (t', repeat) → grows t t'.
Proof.
  unfold propagate_pass. intros H.
  apply (for_each_preorder (λ st st' : Table * bool, grows st.1 st'.1)) in H;
    [done|].
  intros st i st' Hst. unfold propagate_state in Hst. inv_ok.
  apply (for_each_preorder (λ st st' : Table * bool, grows st.1 st'.1)) in Hst;
    [done|].
  intros st1 kv st1' Hst1. unfold propagate_item in Hst1.
  apply (for_each_preorder (λ st st' : Table * bool, grows st.1 st'.1)) in Hst1;
    [done|].
  intros st2 tgt st2'. apply propagate_edge_grows.
Qed.

(** X10.  When the propagation loop returns, the table is a fixed point:
    along every propagation edge the target cell holds every lookahead of
    the source cell. *)
Theorem propagate_saturates (fuel : nat) (table table' : Table) :
  propagate fuel table = Ok table' → saturated table'.
Proof.
  revert table. induction fuel as [|fuel IH]; intros table H; simpl in H; [done|].
  inv_ok. destruct a as [t1 [|]]; [by eapply IH|]. inv_ok.
  by apply propagate_pass_quiet in Ha as [-> ?].
Qed.

(** X11.  The propagation loop changes nothing but lookahead sets: the
    cells and their propagation edges stay as they were, every lookahead
    set contains what it held before, and every lookahead of the final
    table was a lookahead of some cell before the loop (propagation copies,
    it invents no symbol). *)
Theorem propagate_grows (fuel : nat) (table table' : Table) :
  propagate fuel table = Ok table' → grows table table'.
Proof.
  revert table. induction fuel as [|fuel IH]; intros table H; simpl in H; [done|].
  inv_ok. destruct a as [t1 repeat]. apply propagate_pass_grows in Ha.
  destruct repeat; [|by inv_ok]. etrans; [done|]. by apply IH.
Qed.

Lemma sample_propagate :
  propagate 3
    [ {[ (0, 0) := MkEntry {[ (1, (0, 1)) ]} {[ "$" ]} ]};
      {[ (0, 1) := MkEntry ∅ ∅ ]} ]
  = Ok [ {[ (0, 0) := MkEntry {[ (1, (0, 1)) ]} {[ "$" ]} ]};
         {[ (0, 1) := MkEntry ∅ {[ "$" ]} ]} ].
Proof.
  vm_cast_no_check
    (eq_refl (Ok ([ {[ (0, 0) := MkEntry {[ (1, (0, 1)) ]} {[ "$" ]} ]};
                    {[ (0, 1) := MkEntry ∅ {[ "$" ]} ]} ] : Table))).
Qed.

Lemma propagate_saturates_witness :
  saturated [ {[ (0, 0) := MkEntry {[ (1, (0, 1)) ]} {[ "$" ]} ]};
              {[ (0, 1) := MkEntry ∅ {[ "$" ]} ]} ].
Proof. apply (propagate_saturates 3 _ _ sample_propagate). Defined.

Lemma propagate_grows_witness :
  grows [ {[ (0, 0) := MkEntry {[ (1, (0, 1)) ]} {[ "$" ]} ]};
          {[ (0, 1) := MkEntry ∅ ∅ ]} ]
        [ {[ (0, 0) := MkEntry {[ (1, (0, 1)) ]} {[ "$" ]} ]};
          {[ (0, 1) := MkEntry ∅ {[ "$" ]} ]} ].
Proof. apply (propagate_grows 3 _ _ sample_propagate). Defined.

(** ** The parsing table *)

Lemma action_add_Ok (act act' : ActionTable) (s : nat) (t : string)
    (e : TableEntry) :
  action_add act s t e = Ok act' →
  ∃ row es, act !! s = Some row ∧ row !! t = Some es
            ∧ act' = <[s := <[t := es ∪ {[e]}]> row]> act.
Proof. unfold action_add. intros H. inv_ok. eauto. Qed.

Lemma goto_set_Ok (gt gt' : GotoTable) (s : nat) (nt : NonTerminal) (j : nat) :
  goto_set gt s nt j = Ok gt' →
  ∃ row, gt !! s = Some row ∧ gt' = <[s := <[nt := Some j]> row]> gt.
Proof. unfold goto_set. intros H. inv_ok. eauto. Qed.

Lemma lookup_insert_row {A} (l : list A) (s s' : nat) (x y : A) :
  <[s := x]> l !! s' = Some y → (s' = s ∧ y = x) ∨ l !! s' = Some y.
Proof.
  intros H. destruct (decide (s' = s)) as [->|Hne].
  - destruct (decide (s < length l)).
    + rewrite list_lookup_insert_eq in H by done. left. by simplify_eq.
    + rewrite list_insert_ge in H by lia. by right.
  - rewrite list_lookup_insert_ne in H by done. by right.
Qed.

Lemma action_add_keys (n : nat) (keys : gset string) (act act' : ActionTable)
    (s : nat) (t : string) (e : TableEntry) :
  action_add act s t e = Ok act' →
  rows_have_keys n keys act → rows_have_keys n keys act'.
Proof.
  intros (row & es & Hrow & Hes & ->)%action_add_Ok [Hlen Hdom].
  split; [by rewrite length_insert|].
  intros s' row' [[-> ->]|H]%lookup_insert_row; [|by eapply Hdom].
  rewrite dom_insert_L, <-(Hdom _ _ Hrow).
  apply elem_of_dom_2 in Hes. set_solver.
Qed.

Lemma action_add_in_range gr (n : nat) (act act' : ActionTable)
    (s : nat) (t : string) (e : TableEntry) :
  action_add act s t e = Ok act' → entry_in_range gr n e →
  action_in_range gr n act → action_in_range gr n act'.
Proof.
  intros (row & es & Hrow & Hes & ->)%action_add_Ok He Hact.
  intros s' row' t' es' e' [[-> ->]|H]%lookup_insert_row; [|by eapply Hact].
  destruct (decide (t' = t)) as [->|Hne].
  - rewrite lookup_insert_eq. intros [= <-] [Hin| ->%elem_of_singleton]%elem_of_union;
      [by eapply Hact|done].
  - rewrite lookup_insert_ne by done. intros. by eapply Hact.
Qed.

Lemma id_from_lr_one_state_lt (ccol_core : list (gset Item))
    (itemset : gset LItem) (j : nat) :
  id_from_lr_one_state (id_from_core ccol_core) itemset = Ok j →
  j < length ccol_core.
Proof.
  unfold id_from_lr_one_state. intros H. inv_ok.
  apply id_from_core_lookup in H as [H _]. by apply lookup_lt_Some in H.
Qed.

Section setup.
Context (gr : Grammar) (ccol : list (gset LItem)).
Let ids := id_from_core (drop_lalr_one_itemset_lookaheads <$> ccol).
Let keys_t : gset string := list_to_set (terminals gr ++ [end_of_input gr]).
Let nts := drop 1 (nonterms gr).
Let keys_n : gset NonTerminal := list_to_set nts.
Let n := length ccol.

Lemma setup_item_keeps (ccol_state : gset LItem) (s : nat)
    (act act' : ActionTable) (x : LItem) :
  setup_item gr ids ccol_state s act x = Ok act' →
  (rows_have_keys n keys_t act → rows_have_keys n keys_t act')
  ∧ (action_in_range gr n act → action_in_range gr n act').
Proof.
  destruct x as [[prod_index dot] next_symbol]. unfold setup_item.
  intros H. inv_ok. rename a into p. case_decide as Hdot.
  - inv_ok. destruct a as [t|nt]; inv_ok; [|done].
    case_decide; inv_ok; [done|]. split.
    + by eapply action_add_keys.
    + eapply action_add_in_range; [done|]. simpl.
      apply id_from_lr_one_state_lt in Ha2. by rewrite length_fmap in Ha2.
  - case_decide as Hp.
    + case_decide; [|done]. split.
      * by eapply action_add_keys.
      * by eapply action_add_in_range.
    + split.
      * by eapply action_add_keys.
      * eapply action_add_in_range; [done|]. simpl. split; [done|].
        by apply lookup_lt_Some in Ha.
Qed.

Lemma setup_nonterm_keeps (ccol_state : gset LItem) (s : nat)
    (gt gt' : GotoTable) (nt : NonTerminal) :
  nt ∈ nts →
  setup_nonterm gr ids ccol_state s gt nt = Ok gt' →
  (rows_have_keys n keys_n gt → rows_have_keys n keys_n gt')
  ∧ (goto_in_range n gt → goto_in_range n gt').
Proof.
  intros Hnt. unfold setup_nonterm. intros H. inv_ok.
  case_decide; inv_ok; [done|].
  apply id_from_lr_one_state_lt in Ha0. rewrite length_fmap in Ha0.
  apply goto_set_Ok in H as (row & Hrow & ->). split.
  - intros [Hlen Hdom]. split; [by rewrite length_insert|].
    intros s' row' [[-> ->]|H]%lookup_insert_row; [|by eapply Hdom].
    rewrite dom_insert_L, (Hdom _ _ Hrow). unfold keys_n. set_solver.
  - intros Hgt s' row' nt' j [[-> ->]|H]%lookup_insert_row; [|by eapply Hgt].
    destruct (decide (nt' = nt)) as [->|Hne].
    + rewrite lookup_insert_eq. by intros [= <-].
    + rewrite lookup_insert_ne by done. by eapply Hgt.
Qed.

Lemma setup_state_keeps (st st' : GotoTable * ActionTable) (s : nat) :
  setup_state gr ids ccol nts st s = Ok st' →
  (rows_have_keys n keys_n st.1 ∧ rows_have_keys n keys_t st.2 →
   rows_have_keys n keys_n st'.1 ∧ rows_have_keys n keys_t st'.2)
  ∧ (goto_in_range n st.1 ∧ action_in_range gr n st.2 →
     goto_in_range n st'.1 ∧ action_in_range gr n st'.2).
Proof.
  unfold setup_state. intros H. inv_ok. simpl.
  rename a into cs, a0 into act, a1 into gt. split.
  - intros [Hg Ha']. split.
    + eapply (for_each_invariant _ (rows_have_keys n keys_n)); [|exact Hg|exact Ha1].
      intros gt1 nt gt2 Hnt Hgt1 Hstep.
      by apply (setup_nonterm_keeps _ _ _ _ _ Hnt Hstep).
    + eapply (for_each_invariant _ (rows_have_keys n keys_t)); [|exact Ha'|exact Ha0].
      intros act1 x act2 _ Hact1 Hstep.
      by apply (setup_item_keeps _ _ _ _ _ Hstep).
  - intros [Hg Ha']. split.
    + eapply (for_each_invariant _ (goto_in_range n)); [|exact Hg|exact Ha1].
      intros gt1 nt gt2 Hnt Hgt1 Hstep.
      by apply (setup_nonterm_keeps _ _ _ _ _ Hnt Hstep).
    + eapply (for_each_invariant _ (action_in_range gr n)); [|exact Ha'|exact Ha0].
      intros act1 x act2 _ Hact1 Hstep.
      by apply (setup_item_keeps _ _ _ _ _ Hstep).
Qed.

Lemma setup_loop_keeps (st st' : GotoTable * ActionTable) (l : list nat) :
  for_each (setup_state gr ids ccol nts) st l = Ok st' →
  (rows_have_keys n keys_n st.1 ∧ rows_have_keys n keys_t st.2 →
   rows_have_keys n keys_n st'.1 ∧ rows_have_keys n keys_t st'.2)
  ∧ (goto_in_range n st.1 ∧ action_in_range gr n st.2 →
     goto_in_range n st'.1 ∧ action_in_range gr n st'.2).
Proof.
  intros H. split; intros Hst.
  - eapply (for_each_invariant _
      (λ st, rows_have_keys n keys_n st.1 ∧ rows_have_keys n keys_t st.2));
      [|exact Hst|exact H].
    intros st1 s st2 _ Hst1 Hstep. by apply (setup_state_keeps _ _ _ Hstep).
  - eapply (for_each_invariant _
      (λ st, goto_in_range n st.1 ∧ action_in_range gr n st.2));
      [|exact Hst|exact H].
    intros st1 s st2 _ Hst1 Hstep. by apply (setup_state_keeps _ _ _ Hstep).
Qed.

End setup.

Lemma replicate_rows_have_keys `{Countable K} {V} (n : nat) (keys : gset K) (v : V) :
  rows_have_keys n keys (replicate n (gset_to_gmap v keys)).
Proof.
  split; [by rewrite length_replicate|].
  intros s row [-> _]%lookup_replicate. apply dom_gset_to_gmap.
Qed.

(** X12.  The table built from a collection has one ACTION row and one GOTO
    row per state; every ACTION row has a cell for exactly the grammar's
    terminals and the end marker, every GOTO row a cell for exactly the
    nonterminals after the first. *)
Theorem parsing_table_shape gr (ccol : list (gset LItem)) (pt : ParsingTable) :
  setup_from_collection gr ccol = Ok pt →
  pt_terminals pt = terminals gr ++ [end_of_input gr]
  ∧ pt_nonterms pt = drop 1 (nonterms gr)
  ∧ n_states pt = length ccol
  ∧ rows_have_keys (n_states pt) (list_to_set (pt_terminals pt)) (action pt)
  ∧ rows_have_keys (n_states pt) (list_to_set (pt_nonterms pt)) (pt_goto pt).
Proof.
  unfold setup_from_collection. intros H. inv_ok. simpl.
  split_and!; [done..| |];
    apply setup_loop_keeps in Ha as [Hkeys _];
    destruct Hkeys as [Hg Hact];
      try (split; apply replicate_rows_have_keys); done.
Qed.

(** X13.  Every state id stored in the table is the id of a state of the
    collection, and every production index of a reduce entry is the index
    of a production of the grammar other than production 0: shift targets
    and GOTO targets are below [n_states]. *)
Theorem parsing_table_in_range gr (ccol : list (gset LItem)) (pt : ParsingTable) :
  setup_from_collection gr ccol = Ok pt →
  action_in_range gr (n_states pt) (action pt)
  ∧ goto_in_range (n_states pt) (pt_goto pt).
Proof.
  unfold setup_from_collection. intros H. inv_ok. simpl.
  apply setup_loop_keeps in Ha as [_ Hrange].
  destruct Hrange as [Hg Hact]; [|done]. split.
  - intros s row nt j [-> _]%lookup_replicate.
    rewrite lookup_gset_to_gmap_Some. by intros [_ ?].
  - intros s row t es e [-> _]%lookup_replicate.
    rewrite lookup_gset_to_gmap_Some. intros [_ <-]. set_solver.
Qed.

Lemma g_single_table :
  setup_from_collection Samples.g_single
    [list_to_set [((0, 0), "$"); ((1, 0), "$")];
     {[((0, 1), "$")]}; {[((1, 1), "$")]}]
  = Ok (MkParsingTable ["a"; "$"] [Samples.S] 3
          [ {[ Samples.S := Some 1 ]}; {[ Samples.S := None ]};
            {[ Samples.S := None ]} ]
          [ <[ "a" := {[ shift 2 ]} ]> {[ "$" := ∅ ]};
            <[ "a" := ∅ ]> {[ "$" := {[ accept ]} ]};
            <[ "a" := ∅ ]> {[ "$" := {[ reduce 1 ]} ]} ]).
Proof.
  vm_cast_no_check
    (eq_refl (Ok (MkParsingTable ["a"; "$"] [Samples.S] 3
          [ {[ Samples.S := Some 1 ]}; {[ Samples.S := None ]};
            {[ Samples.S := None ]} ]
          [ <[ "a" := {[ shift 2 ]} ]> {[ "$" := ∅ ]};
            <[ "a" := ∅ ]> {[ "$" := {[ accept ]} ]};
            <[ "a" := ∅ ]> {[ "$" := {[ reduce 1 ]} ]} ]))).
Qed.

Lemma parsing_table_shape_witness :
  let pt := MkParsingTable ["a"; "$"] [Samples.S] 3
          [ {[ Samples.S := Some 1 ]}; {[ Samples.S := None ]};
            {[ Samples.S := None ]} ]
          [ <[ "a" := {[ shift 2 ]} ]> {[ "$" := ∅ ]};
            <[ "a" := ∅ ]> {[ "$" := {[ accept ]} ]};
            <[ "a" := ∅ ]> {[ "$" := {[ reduce 1 ]} ]} ] in
  pt_terminals pt
  = terminals Samples.g_single ++ [end_of_input Samples.g_single]
  ∧ pt_nonterms pt = drop 1 (nonterms Samples.g_single)
  ∧ n_states pt = 3
  ∧ rows_have_keys (n_states pt) (list_to_set (pt_terminals pt)) (action pt)
  ∧ rows_have_keys (n_states pt) (list_to_set (pt_nonterms pt)) (pt_goto pt).
Proof.
  intros pt. exact (parsing_table_shape Samples.g_single _ pt g_single_table).
Defined.

Lemma parsing_table_in_range_witness :
  let pt := MkParsingTable ["a"; "$"] [Samples.S] 3
          [ {[ Samples.S := Some 1 ]}; {[ Samples.S := None ]};
            {[ Samples.S := None ]} ]
          [ <[ "a" := {[ shift 2 ]} ]> {[ "$" := ∅ ]};
            <[ "a" := ∅ ]> {[ "$" := {[ accept ]} ]};
            <[ "a" := ∅ ]> {[ "$" := {[ reduce 1 ]} ]} ] in
  action_in_range Samples.g_single (n_states pt) (action pt)
  ∧ goto_in_range (n_states pt) (pt_goto pt).
Proof.
  intros pt. exact (parsing_table_in_range Samples.g_single _ pt g_single_table).
Defined.

(** ** The transitions of a state *)

Lemma elem_of_state_symbols (dfa : Automaton) (i : nat) (sym : Symbol) :
  sym ∈ state_symbols dfa i ↔ is_Some (dfa_goto dfa !! (i, sym)).
Proof.
  unfold state_symbols. rewrite list_elem_of_omap. split.
  - intros ([[i' sym'] j] & Hin%elem_of_map_to_list & Hsome). simpl in Hsome.
    case_decide; [|done]. simplify_eq. by eexists.
  - intros [j Hj]. exists ((i, sym), j). split; [by apply elem_of_map_to_list|].
    simpl. by rewrite decide_True.
Qed.

Lemma NoDup_state_symbols (dfa : Automaton) (i : nat) :
  NoDup (state_symbols dfa i).
Proof.
  unfold state_symbols.
  pose proof (NoDup_fst_map_to_list (dfa_goto dfa)) as Hnd.
  induction (map_to_list (dfa_goto dfa)) as [|[[i' sym] j] l IH]; simpl;
    [constructor|].
  apply NoDup_cons in Hnd as [Hnotin Hnd]. simpl in *.
  case_decide as Hi; [|by apply IH]. subst i'. apply NoDup_cons. split; [|by apply IH].
  intros ([[i'' sym'] j'] & Hin & Hsome)%list_elem_of_omap. simpl in Hsome.
  case_decide; [|done]. simplify_eq. apply Hnotin.
  apply list_elem_of_fmap. by exists ((i, sym), j').
Qed.

(** X14.  The symbols visited for a state in steps 2 and 3 are exactly the
    symbols on which the automaton has a transition from that state, each
    visited once; so the subscript [dfa.goto[(i_state_id, sym)]] in the loop
    never raises [KeyError]. *)
Theorem state_symbols_transitions (dfa : Automaton) (i : nat) :
  NoDup (state_symbols dfa i)
  ∧ (∀ sym, sym ∈ state_symbols dfa i ↔ is_Some (dfa_goto dfa !! (i, sym)))
  ∧ ∀ sym, sym ∈ state_symbols dfa i →
      ∃ j, getitem (dfa_goto dfa) (i, sym) = Ok j.
Proof.
  split_and!; [apply NoDup_state_symbols|apply elem_of_state_symbols|].
  intros sym [j Hj]%elem_of_state_symbols. exists j. by apply getitem_Ok.
Qed.

(** ** Edge and error behaviour of closure *)

Lemma inert_expansion gr (x : LItem) : inert gr x → item_expansion gr x = Ok [].
Proof.
  destruct x as [[prod_index dot] lookahead].
  intros (p & Hp & Hcase). simpl in *. unfold item_expansion, index.
  rewrite Hp. simpl. destruct Hcase as [->|[[t Ht]|(nt & Hnt & Hnot)]].
  - by rewrite decide_True.
  - apply lookup_lt_Some in Ht as Hlt. rewrite decide_False by lia.
    by rewrite Ht.
  - apply lookup_lt_Some in Hnt as Hlt. rewrite decide_False by lia.
    rewrite Hnt. simpl. by rewrite decide_False.
Qed.

(** X15.  On items it has nothing to add for, [closure] returns its input as
    a set: this covers the empty input, completed items, items before a
    terminal, and items before a nonterminal object that is not in
    [gr.nonterms], which the membership test skips without an error. *)
Theorem closure_inert gr (item_set : list LItem) :
  (∀ x, x ∈ item_set → inert gr x) →
  closure gr item_set = Ok (list_to_set item_set).
Proof.
  intros Hinert. unfold closure, closure_fuel.
  destruct (decide (item_set = [])) as [->|Hne]; [done|].
  rewrite closure_loop_turn by done.
  assert (∀ (s : gset LItem) l, (∀ x, x ∈ l → inert gr x) →
            for_each (closure_step gr) (s, []) l = Ok (s, [])) as Hgen.
  { intros s l. induction l as [|x l IH]; intros Hl; simpl; [done|].
    rewrite closure_step_expansion, inert_expansion by (apply Hl; left).
    simpl. apply IH. intros y Hy. apply Hl. by right. }
  rewrite Hgen by done. simpl. apply closure_loop_nil.
Qed.

Lemma closure_inert_witness :
  closure Samples.g_single [((1, 0), "$"); ((0, 1), "$")]
  = Ok (list_to_set [((1, 0), "$"); ((0, 1), "$")]).
Proof.
  apply (closure_inert Samples.g_single [((1, 0), "$"); ((0, 1), "$")]).
  intros x [->|[->|[]%elem_of_nil]%elem_of_cons]%elem_of_cons.
  - exists (Samples.S, [T "a"]). split; [reflexivity|].
    right. left. by exists "a".
  - exists (Samples.S', [N Samples.S]). split; [reflexivity|]. by left.
Defined.


